(** * ProductGridViewer: the faceted filter and edit-reconciliation engine

    A shallow embedding of [static/js/main.js].  JavaScript strings are
    byte strings ([string]); JavaScript objects used as dictionaries are
    finite maps ([gmap]); the DOM and the ambient globals
    ([pendingChanges], [currentProductInModal], [PRODUCTS_DATA]) are fields
    of an explicit page state that every handler takes and returns. *)

From Stdlib Require Import ZArith QArith Lqa Ascii String List Bool Permutation Sorted.
From stdpp Require Import base option gmap strings list fin_maps.

Local Open Scope string_scope.
Local Open Scope list_scope.
Local Open Scope stdpp_scope.

(** ** JavaScript string primitives used by main.js *)

Module JsString.

(** [\d] of a JavaScript regular expression: the ten ASCII digits. *)
Definition is_digit (c : ascii) : bool :=
  match Ascii.is_nat c with Some _ => true | None => false end.

(** White space removed by [String.prototype.trim], restricted to the one-byte
    code points (tab, line feed, vertical tab, form feed, carriage return,
    space). *)
Definition is_space (c : ascii) : bool := Ascii.is_space c.

Fixpoint trimStart (s : string) : string :=
  match s with
  | String c s' => if is_space c then trimStart s' else s
  | EmptyString => EmptyString
  end.

(** [trimEnd] keeps a character when something that is not white space
    follows it. *)
Fixpoint trimEnd (s : string) : string :=
  match s with
  | String c s' =>
      match trimEnd s' with
      | EmptyString => if is_space c then EmptyString else String c EmptyString
      | t => String c t
      end
  | EmptyString => EmptyString
  end.

Definition trim (s : string) : string := trimEnd (trimStart s).

(** ASCII case mapping.  [toUpperCase] leaves bytes outside [a-z] alone; no
    code point outside ASCII upper-cases to one of the letters T, R, U, E. *)
Definition upper_char (c : ascii) : ascii :=
  let n := N_of_ascii c in
  if ((97 <=? n) && (n <=? 122))%N then ascii_of_N (n - 32) else c.

Definition lower_char (c : ascii) : ascii :=
  let n := N_of_ascii c in
  if ((65 <=? n) && (n <=? 90))%N then ascii_of_N (n + 32) else c.

Fixpoint map_chars (f : ascii → ascii) (s : string) : string :=
  match s with
  | String c s' => String (f c) (map_chars f s')
  | EmptyString => EmptyString
  end.

Definition toUpperCase : string → string := map_chars upper_char.
Definition toLowerCase : string → string := map_chars lower_char.

(** [s.replace(/c/g, r)] for a one-character pattern. *)
Fixpoint replace_all (c : ascii) (r : string) (s : string) : string :=
  match s with
  | String d s' =>
      if Ascii.eqb d c then r +:+ replace_all c r s'
      else String d (replace_all c r s')
  | EmptyString => EmptyString
  end.

(** [s.replace(/[^...]/g, '')]: keep the characters that satisfy [keep]. *)
Fixpoint keep_chars (keep : ascii → bool) (s : string) : string :=
  match s with
  | String c s' =>
      if keep c then String c (keep_chars keep s') else keep_chars keep s'
  | EmptyString => EmptyString
  end.

(** The longest prefix of digits, and what follows it. *)
Fixpoint take_digits (s : string) : string :=
  match s with
  | String c s' => if is_digit c then String c (take_digits s') else EmptyString
  | EmptyString => EmptyString
  end.

Fixpoint skip_digits (s : string) : string :=
  match s with
  | String c s' => if is_digit c then skip_digits s' else s
  | EmptyString => EmptyString
  end.

Fixpoint all_digits (s : string) : bool :=
  match s with
  | String c s' => is_digit c && all_digits s'
  | EmptyString => true
  end.

Definition is_empty (s : string) : bool :=
  match s with EmptyString => true | _ => false end.

End JsString.

(** ** Price text: validation and the pending value *)

Module Price.
Import JsString.

(** [/^\d+(\.\d+)?$/.test(s)].  The digit runs are greedy and what follows a
    run is never a digit, so the match is deterministic. *)
Definition numeric_regex_test (s : string) : bool :=
  match s with
  | String c s1 =>
      is_digit c &&
      match skip_digits s1 with
      | EmptyString => true
      | String "."%char (String d s2) => is_digit d && is_empty (skip_digits s2)
      | _ => false
      end
  | EmptyString => false
  end.

(** The guard of the save handler, negated:
    [rawPrice && !/^\d+(\.\d+)?$/.test(rawPrice)] aborts the save. *)
Definition price_accepted (rawPrice : string) : bool :=
  negb (negb (is_empty rawPrice) && negb (numeric_regex_test rawPrice)).

(** [newPrice.replace(/^\$/, '')]. *)
Definition strip_dollar (s : string) : string :=
  match s with
  | String "$"%char s' => s'
  | _ => s
  end.

(** The numeric pattern in the words of the specification: one or more
    digits, optionally followed by a single decimal point and one or more
    fractional digits. *)
Definition digit_run (s : string) : Prop := all_digits s = true ∧ s ≠ "".

Definition numeric_pattern (s : string) : Prop :=
  ∃ ip, digit_run ip ∧ (s = ip ∨ ∃ fp, digit_run fp ∧ s = ip +:+ "." +:+ fp).

End Price.

(** ** The page: filter controls and the product grid *)

Module Dom.
Import JsString.

(** An [<option>] of a filter control. *)
Record OptionEl := mkOption { opt_value : string; opt_disabled : bool }.

(** A multi-select filter control.  [sel_val] is what [$sel.val()] returns
    and what [$sel.val(v)] stores: the entry of the filter state. *)
Record SelectEl := mkSelect { sel_val : list string; sel_options : list OptionEl }.

(** A [.grid-desc] or [.grid-price] node: its text and whether it carries the
    class [changed-attribute]. *)
Record TextEl := mkText { textContent : string; text_changed : bool }.

(** An [.attribute-value] span of a product tile. *)
Record AttrSpan := mkSpan {
  span_attrName : string;
  span_text : string;
  span_currentValue : string;
  span_changed : bool
}.

(** A [.product] tile.  [el_attrs] holds its attributes under their
    lower-cased names; [el_index] is the integer its [data-product-index]
    spells. *)
Record ProductEl := mkProductEl {
  el_index : Z;
  el_attrs : gmap string string;
  el_display : string;
  grid_desc : option TextEl;
  grid_price : option TextEl;
  el_spans : list AttrSpan
}.

(** The document: controls by element id, tiles in grid order. *)
Record Doc := mkDoc { selects : gmap string SelectEl; grid : list ProductEl }.

(** [el.getAttribute(name)] and [el.setAttribute(name, v)] of an HTML element:
    the name is matched in lower case; a missing attribute reads as [null]. *)
Definition getAttribute (el : ProductEl) (name : string) : option string :=
  el_attrs el !! toLowerCase name.

Definition setAttribute (el : ProductEl) (name v : string) : ProductEl :=
  mkProductEl (el_index el) (<[toLowerCase name := v]> (el_attrs el))
    (el_display el) (grid_desc el) (grid_price el) (el_spans el).

Definition set_display (d : string) (el : ProductEl) : ProductEl :=
  mkProductEl (el_index el) (el_attrs el) d (grid_desc el) (grid_price el)
    (el_spans el).

(** [$('#' + id).val() || []]. *)
Definition jq_val (doc : Doc) (id : string) : list string :=
  match selects doc !! id with
  | Some s => sel_val s
  | None => []
  end.

(** [$('#' + id).val(v)]; nothing happens when no element has the id. *)
Definition jq_set_val (doc : Doc) (id : string) (v : list string) : Doc :=
  mkDoc (alter (λ s, mkSelect v (sel_options s)) id (selects doc)) (grid doc).

(** [arr.includes(x)] for an array of strings. *)
Definition includes (x : string) (arr : list string) : bool :=
  bool_decide (x ∈ arr).

(** [arr.includes(v)] where [v] may be [null]: no string equals [null]. *)
Definition includes_value (v : option string) (arr : list string) : bool :=
  match v with
  | Some x => includes x arr
  | None => false
  end.

Definition is_nil {A} (l : list A) : bool :=
  match l with [] => true | _ => false end.

End Dom.

(** ** Filter evaluation and faceting *)

Module Filter.
Import JsString Dom.

Definition sanitizeAttr (attr : string) : string :=
  replace_all ":" ""
    (replace_all "+" "plus"
      (keep_chars (λ c, negb (Ascii.eqb c "(" || Ascii.eqb c ")"))
        (replace_all "/" "_"
          (replace_all " " "_" attr)))).

(** [product.getAttribute(`data-${d}`)?.toUpperCase() === 'TRUE']. *)
Definition flag_is_true (p : ProductEl) (d : string) : bool :=
  match getAttribute p ("data-" +:+ d) with
  | Some v => bool_decide (toUpperCase v = "TRUE")
  | None => false
  end.

(** The [for (let key in filters)] loop with its [break]. *)
Fixpoint passes_filters (filters : list (string * list string)) (p : ProductEl)
  : bool :=
  match filters with
  | [] => true
  | (key, sel) :: rest =>
      let val := getAttribute p ("data-" +:+ key) in
      if negb (is_nil sel) && negb (includes "All" sel)
         && negb (includes_value val sel)
      then false
      else passes_filters rest p
  end.

Definition show_product (filters : list (string * list string))
    (retailFilters : list string) (p : ProductEl) : bool :=
  let show := passes_filters filters p in
  if show && negb (is_nil retailFilters) && negb (includes "All" retailFilters)
  then existsb (flag_is_true p) retailFilters
  else show.

Definition is_visible (p : ProductEl) : bool :=
  negb (bool_decide (el_display p = "none")).

(** The body of [$sel.find('option').each(...)] for an attribute control. *)
Definition facet_option (avail : list (option string)) (o : OptionEl) : OptionEl :=
  let v := opt_value o in
  if bool_decide (v = "All") then o
  else mkOption v (negb (bool_decide (Some v ∈ avail))).

(** The same for the flag control. *)
Definition facet_flag (visible : list ProductEl) (o : OptionEl) : OptionEl :=
  let v := opt_value o in
  if bool_decide (v = "All") then o
  else mkOption v (negb (existsb (λ p, flag_is_true p v) visible)).

Definition map_options (f : OptionEl → OptionEl) (s : SelectEl) : SelectEl :=
  mkSelect (sel_val s) (f <$> sel_options s).

(** The tiles that are not hidden. *)
Definition visible_products (doc : Doc) : list ProductEl :=
  filter (λ p, is_visible p = true) (grid doc).

(** How faceting leaves a control: the selection and the option values are
    kept, the option [All] keeps its [disabled] flag, and any other option is
    enabled exactly when [enabled] holds of its value. *)
Definition faceted (enabled : string → Prop) (s s' : SelectEl) : Prop :=
  sel_val s' = sel_val s
  ∧ Forall2
      (λ o o',
         opt_value o' = opt_value o
         ∧ (opt_value o = "All" → opt_disabled o' = opt_disabled o)
         ∧ (opt_value o ≠ "All" →
              (opt_disabled o' = false ↔ enabled (opt_value o))))
      (sel_options s) (sel_options s').

(** A flag is satisfied by a tile, in words: its field is there and reads
    [TRUE] whatever the case of its letters. *)
Definition satisfies_flag (p : ProductEl) (d : string) : Prop :=
  ∃ v, getAttribute p ("data-" +:+ d) = Some v ∧ toUpperCase v = "TRUE".



Section WithAttributeNames.
Variable ALL_ATTRIBUTE_NAMES : list string.

(** The [filters] object of [applyFilters], as the list of its assignments:
    a repeated key is assigned the same array again. *)
Definition read_filters (doc : Doc) : list (string * list string) :=
  (λ attr, let key := sanitizeAttr attr in (key, jq_val doc ("filter-" +:+ key)))
    <$> ALL_ATTRIBUTE_NAMES.

Definition updateFilterOptions (doc : Doc) : Doc :=
  let visible := visible_products doc in
  let sels1 :=
    fold_left
      (λ sels attr,
         let key := sanitizeAttr attr in
         let avail := (λ p, getAttribute p ("data-" +:+ key)) <$> visible in
         alter (map_options (facet_option avail)) ("filter-" +:+ key) sels)
      ALL_ATTRIBUTE_NAMES (selects doc) in
  let sels2 := alter (map_options (facet_flag visible)) "filter-retail" sels1 in
  mkDoc sels2 (grid doc).

Definition applyFilters (doc : Doc) : Doc :=
  let filters := read_filters doc in
  let retailFilters := jq_val doc "filter-retail" in
  let grid' :=
    (λ p, set_display
            (if show_product filters retailFilters p then "block" else "none") p)
      <$> grid doc in
  updateFilterOptions (mkDoc (selects doc) grid').

(** *** The select2 handlers of a filter control *)

(** [select2:select]: [picked] is the chosen token and the control already
    holds it. *)
Definition on_select (id picked : string) (doc : Doc) : Doc :=
  let vals := jq_val doc id in
  if bool_decide (picked = "All")
  then applyFilters (jq_set_val doc id ["All"])
  else applyFilters
         (jq_set_val doc id (filter (λ v, v ≠ "All") vals)).

(** [select2:unselect]: the control has already dropped the token. *)
Definition on_unselect (id : string) (doc : Doc) : Doc :=
  let vals := jq_val doc id in
  if is_nil vals then applyFilters (jq_set_val doc id ["All"]) else doc.

(** What the widget does to the control before it raises the event: a picked
    token joins the selection, an un-picked one leaves it. *)
Inductive FilterEvent :=
  | Select (picked : string)
  | Unselect (removed : string).

Definition widget_update (ev : FilterEvent) (vals : list string) : list string :=
  match ev with
  | Select picked => if includes picked vals then vals else vals ++ [picked]
  | Unselect removed => filter (λ v, v ≠ removed) vals
  end.

(** The widget stores the new selection and raises [change] (which runs
    [applyFilters]) before it raises [select2:select] or [select2:unselect]. *)
Definition filter_event (id : string) (doc : Doc) (ev : FilterEvent) : Doc :=
  let doc1 :=
    applyFilters (jq_set_val doc id (widget_update ev (jq_val doc id))) in
  match ev with
  | Select picked => on_select id picked doc1
  | Unselect _ => on_unselect id doc1
  end.



(** A run of events, each on the control with the given id. *)
Definition filter_events (doc : Doc) (evs : list (string * FilterEvent)) : Doc :=
  fold_left (λ d '(id, ev), filter_event id d ev) evs doc.

End WithAttributeNames.

End Filter.

(** ** Sorting the grid *)

Module Sort.
Import JsString Dom.

(** A JavaScript number as the sort sees it: [NaN], or a finite value.  Finite
    values are the exact decimal values of the parsed texts; a double holds
    the same value, and differences keep their sign, for texts of at most 15
    digits. *)
Inductive Num :=
  | NaN
  | Fin (q : Q).

Definition num_sub (a b : Num) : Num :=
  match a, b with
  | Fin x, Fin y => Fin (x - y)
  | _, _ => NaN
  end.

Definition num_neg (a : Num) : Num :=
  match a with
  | Fin x => Fin (- x)
  | NaN => NaN
  end.

Definition digit_value (c : ascii) : Z :=
  match Ascii.is_nat c with Some n => Z.of_nat n | None => 0%Z end.

(** The integer a digit string spells, most significant digit first. *)
Fixpoint digits_value (acc : Z) (s : string) : Z :=
  match s with
  | String c s' => digits_value (10 * acc + digit_value c) s'
  | EmptyString => acc
  end.

(** [parseFloat] on a text made of digits and dots: the longest prefix
    [digits], [digits.digits], [digits.] or [.digits]; [NaN] when there is no
    digit in it. *)
Definition parseFloat (s : string) : Num :=
  let ip := take_digits s in
  let fp :=
    match skip_digits s with
    | String "."%char r => take_digits r
    | _ => EmptyString
    end in
  if is_empty ip && is_empty fp then NaN
  else Fin (inject_Z (digits_value 0 (ip +:+ fp))
            / inject_Z (10 ^ Z.of_nat (String.length fp))).

(** [text.replace(/[^0-9.]/g, '')]. *)
Definition strip_non_numeric (text : string) : string :=
  keep_chars (λ c, is_digit c || Ascii.eqb c ".") text.

(** [pa ? parseFloat(pa.textContent.replace(/[^0-9.]/g, '')) : 0]. *)
Definition price_number (p : ProductEl) : Num :=
  match grid_price p with
  | Some t => parseFloat (strip_non_numeric (textContent t))
  | None => Fin 0
  end.

(** The value a tile is sorted by when its price parses. *)
Definition price_value (p : ProductEl) : Q :=
  match price_number p with
  | Fin q => q
  | NaN => 0
  end.

(** [Array.prototype.sort(comparefn)].  The result of [comparefn] is read by
    its sign, [NaN] counting as [+0].  The sort is stable; it is modelled by
    insertion, which yields the one stable sorted arrangement whenever
    [comparefn] is a consistent comparator. *)
Definition is_positive (v : Num) : bool :=
  match v with
  | Fin q => match (q ?= 0)%Q with Gt => true | _ => false end
  | NaN => false
  end.

Fixpoint sort_insert {A} (comparefn : A → A → Num) (x : A) (l : list A) : list A :=
  match l with
  | [] => [x]
  | y :: l' =>
      if is_positive (comparefn x y) then y :: sort_insert comparefn x l'
      else x :: l
  end.

Definition array_sort {A} (comparefn : A → A → Num) (l : list A) : list A :=
  foldr (sort_insert comparefn) [] l.

Section WithCollation.
(** [a.localeCompare(b)]: the host's collation, negative, zero or positive. *)
Variable localeCompare : string → string → Z.

Definition or_empty (v : option string) : string :=
  match v with Some s => s | None => "" end.

(** The comparison function handed to [items.sort] in [sortByField]. *)
Definition compare_items (field dir : string) (a b : ProductEl) : Num :=
  if bool_decide (field = "description") then
    let aVal := or_empty ((λ t, trim (textContent t)) <$> grid_desc a) in
    let bVal := or_empty ((λ t, trim (textContent t)) <$> grid_desc b) in
    let cmp := Fin (inject_Z (localeCompare aVal bVal)) in
    if bool_decide (dir = "asc") then cmp else num_neg cmp
  else if bool_decide (field = "price") then
    let aNum := price_number a in
    let bNum := price_number b in
    if bool_decide (dir = "asc") then num_sub aNum bNum else num_sub bNum aNum
  else
    let aVal := or_empty (getAttribute a ("data-" +:+ field)) in
    let bVal := or_empty (getAttribute b ("data-" +:+ field)) in
    let cmp := Fin (inject_Z (localeCompare aVal bVal)) in
    if bool_decide (dir = "asc") then cmp else num_neg cmp.

Definition sortByField (field dir : string) (doc : Doc) : Doc :=
  mkDoc (selects doc) (array_sort (compare_items field dir) (grid doc)).

End WithCollation.

(** Byte-wise comparison, a collation for closed examples. *)
Definition ordinalCompare (a b : string) : Z :=
  match String.compare a b with
  | Lt => (-1)%Z
  | Eq => 0%Z
  | Gt => 1%Z
  end.

End Sort.

(** ** Catalog records, the modal and the pending change set *)

Module Edit.
Import JsString Price Dom Filter.

Record Product := mkProduct {
  original_index : Z;
  description : string;
  price : string;
  attributes : gmap string string;
  original_description : string;
  original_price : string;
  original_attributes : gmap string string;
  image_filename : option string
}.

Definition set_description (v : string) (p : Product) : Product :=
  mkProduct (original_index p) v (price p) (attributes p)
    (original_description p) (original_price p) (original_attributes p)
    (image_filename p).

Definition set_price (v : string) (p : Product) : Product :=
  mkProduct (original_index p) (description p) v (attributes p)
    (original_description p) (original_price p) (original_attributes p)
    (image_filename p).

Definition set_attribute (attr v : string) (p : Product) : Product :=
  mkProduct (original_index p) (description p) (price p)
    (<[attr := v]> (attributes p))
    (original_description p) (original_price p) (original_attributes p)
    (image_filename p).

(** One [.modal-attribute-row]: the attribute of its [select], the value of
    the [select] and the text of its [.new-value-input]. *)
Record AttrRow := mkRow {
  row_attrName : string;
  row_select_value : string;
  row_input_value : string
}.

(** The modal.  [modalPrice] is [None] when the page has no [#modalPrice]. *)
Record Modal := mkModal {
  modalDescription : string;
  modalPrice : option string;
  modal_rows : list AttrRow;
  modal_display : string
}.

(** [pendingChanges]: record id, then field name, then new value.  A record id
    keys the object through its decimal spelling, which [parseInt] reads
    back. *)
Abbreviation PendingChanges := (gmap Z (gmap string string)).

(** The page state.  [currentProductInModal] refers to an object of
    [PRODUCTS_DATA]: it is the position of that object, and a write through it
    is a write into [PRODUCTS_DATA]. *)
Record State := mkState {
  PRODUCTS_DATA : list Product;
  pendingChanges : PendingChanges;
  currentProductInModal : option nat;
  modal : Modal;
  doc : Doc
}.

(** One element of the array posted to [/update_attributes]. *)
Record Change := mkChange {
  change_original_index : Z;
  change_attribute : string;
  change_newValue : string
}.

(** What a handler does to the world outside the page state. *)
Inductive Effect :=
  | Alert (message : string)
  | Fetch (url : string) (body : list Change)
  | Reload
  | TypeError.

(** [pendingChanges[idx] = pendingChanges[idx] || {}]. *)
Definition ensure_entry (idx : Z) (pc : PendingChanges) : PendingChanges :=
  <[idx := default ∅ (pc !! idx)]> pc.

(** [pendingChanges[idx][field] = v], the entry for [idx] being there. *)
Definition set_pending (idx : Z) (field v : string) (pc : PendingChanges)
  : PendingChanges :=
  <[idx := <[field := v]> (default ∅ (pc !! idx))]> pc.

(** [pendingChanges[idx][field]], [None] when either key is absent. *)
Definition pending_value (pc : PendingChanges) (idx : Z) (field : string)
  : option string :=
  pc !! idx ≫= λ m, m !! field.

(** A field of a record reads differently in [cur'] than in [cur]. *)
Definition field_changed (f : string) (cur cur' : Product) : Prop :=
  (f = "description" ∧ description cur' ≠ description cur)
  ∨ (f = "price" ∧ price cur' ≠ price cur)
  ∨ attributes cur' !! f ≠ attributes cur !! f.

(** What one block of the save handler may do to the pending change set:
    it writes an entry of record [idx] only for a field it changes in the
    record, and it removes nothing. *)
Definition writes_only_changes (idx : Z)
    (s s' : PendingChanges * Product) : Prop :=
  (∀ i g, pending_value s'.1 i g ≠ pending_value s.1 i g →
          i = idx ∧ field_changed g s.2 s'.2)
  ∧ (∀ i g, is_Some (pending_value s.1 i g) → is_Some (pending_value s'.1 i g)).

(** [PRODUCTS_DATA.find(p => p.original_index === idx)], with its position. *)
Definition find_product (idx : Z) (ps : list Product) : option (nat * Product) :=
  list_find (λ p, original_index p = idx) ps.

(** A value written where a string is expected: [undefined] spells itself. *)
Definition js_string (v : option string) : string :=
  match v with Some s => s | None => "undefined" end.

(** A value assigned to [textContent]: [undefined] empties the node. *)
Definition text_of (v : option string) : string :=
  match v with Some s => s | None => "" end.

Definition validation_message : string :=
  "Please enter a valid price (numbers only, with optional decimal).".

(** The effective new value of a row: the custom text when the sentinel
    choice is selected. *)
Definition row_value (r : AttrRow) : string :=
  if bool_decide (row_select_value r = "__NEW_VALUE__")
  then trim (row_input_value r)
  else row_select_value r.

(** A record holds what the modal shows: its description, its price and,
    for every row, the effective value of the row. *)
Definition holds_entered (m : Modal) (p : Product) : Prop :=
  description p = trim (modalDescription m)
  ∧ (∀ text, modalPrice m = Some text → price p = trim text)
  ∧ (∀ r, r ∈ modal_rows m → attributes p !! row_attrName r = Some (row_value r)).

(** The three blocks of the save handler; each takes and returns the pending
    change set and the record in the modal. *)
Definition save_description (idx : Z) (m : Modal)
    (s : PendingChanges * Product) : PendingChanges * Product :=
  let '(pc, cur) := s in
  let newDesc := trim (modalDescription m) in
  if bool_decide (newDesc ≠ description cur)
  then (set_pending idx "description" newDesc pc, set_description newDesc cur)
  else (pc, cur).

Definition save_price (idx : Z) (m : Modal)
    (s : PendingChanges * Product) : PendingChanges * Product :=
  let '(pc, cur) := s in
  match modalPrice m with
  | Some text =>
      let newPrice := trim text in
      if bool_decide (newPrice ≠ price cur)
      then (set_pending idx "price" (strip_dollar newPrice) pc,
            set_price newPrice cur)
      else (pc, cur)
  | None => (pc, cur)
  end.

Definition save_row (idx : Z) (s : PendingChanges * Product) (r : AttrRow)
  : PendingChanges * Product :=
  let '(pc, cur) := s in
  let attr := row_attrName r in
  let rawNew := row_value r in
  if bool_decide (Some rawNew ≠ attributes cur !! attr)
  then (set_pending idx attr rawNew pc, set_attribute attr rawNew cur)
  else (pc, cur).

Definition save_attributes (idx : Z) (m : Modal)
    (s : PendingChanges * Product) : PendingChanges * Product :=
  fold_left (save_row idx) (modal_rows m) s.

(** *** The grid tile of a record, refreshed from the record *)

Definition refresh_span (data : Product) (s : AttrSpan) : AttrSpan :=
  let newVal := attributes data !! span_attrName s in
  let originalVal := original_attributes data !! span_attrName s in
  mkSpan (span_attrName s) (text_of newVal) (js_string newVal)
    (bool_decide (newVal ≠ originalVal)).

Definition refresh_tile (data : Product) (el : ProductEl) : ProductEl :=
  let desc :=
    (λ _, mkText (description data)
            (bool_decide (description data ≠ original_description data)))
      <$> grid_desc el in
  let pr :=
    (λ _, mkText ("$" +:+ price data)
            (bool_decide (price data ≠ original_price data)))
      <$> grid_price el in
  let attrs :=
    fold_left
      (λ (m : gmap string string) s,
         <[toLowerCase ("data-" +:+ sanitizeAttr (span_attrName s))
           := js_string (attributes data !! span_attrName s)]> m)
      (el_spans el) (el_attrs el) in
  mkProductEl (el_index el) attrs (el_display el) desc pr
    (refresh_span data <$> el_spans el).

Definition set_modal_display (d : string) (m : Modal) : Modal :=
  mkModal (modalDescription m) (modalPrice m) (modal_rows m) d.

Section WithAttributeNames.
Variable ALL_ATTRIBUTE_NAMES : list string.

(** [updateMainGridView(idx)] on the document.  [None] is the [TypeError] of
    reading a field of [undefined], when no record has the id and the tile
    has something to refresh. *)
Definition updateMainGridView (idx : Z) (ps : list Product) (d : Doc)
  : option Doc :=
  match list_find (λ el, el_index el = idx) (grid d) with
  | None => Some d
  | Some (i, el) =>
      match find_product idx ps with
      | Some (_, data) =>
          Some (applyFilters ALL_ATTRIBUTE_NAMES
                  (mkDoc (selects d) (<[i := refresh_tile data el]> (grid d))))
      | None =>
          match grid_desc el, grid_price el, el_spans el with
          | None, None, [] => Some (applyFilters ALL_ATTRIBUTE_NAMES d)
          | _, _, _ => None
          end
      end
  end.

(** The click handler of [#saveModalChanges]. *)
Definition saveModalChanges (st : State) : State * list Effect :=
  match currentProductInModal st with
  | None => (st, [])
  | Some pos =>
      match PRODUCTS_DATA st !! pos with
      | None => (st, [])
      | Some cur =>
          let idx := original_index cur in
          let pc := ensure_entry idx (pendingChanges st) in
          match modalPrice (modal st) with
          | None =>
              (mkState (PRODUCTS_DATA st) pc (currentProductInModal st)
                 (modal st) (doc st), [TypeError])
          | Some text =>
              let rawPrice := trim text in
              if negb (price_accepted rawPrice) then
                (mkState (PRODUCTS_DATA st) pc (currentProductInModal st)
                   (modal st) (doc st), [Alert validation_message])
              else
                let '(pc', cur') :=
                  save_attributes idx (modal st)
                    (save_price idx (modal st)
                      (save_description idx (modal st) (pc, cur))) in
                let ps' := <[pos := cur']> (PRODUCTS_DATA st) in
                match updateMainGridView idx ps' (doc st) with
                | Some d' =>
                    (mkState ps' pc' (currentProductInModal st)
                       (set_modal_display "none" (modal st)) d', [])
                | None =>
                    (mkState ps' pc' (currentProductInModal st) (modal st)
                       (doc st), [TypeError])
                end
          end
      end
  end.

(** The click handler of a product tile: open the modal on its record.  The
    [select] of a row shows the record's current value and its custom input
    starts empty. *)
Definition open_row (product : Product) (attr : string) : AttrRow :=
  mkRow attr (js_string (attributes product !! attr)) "".

Definition openModal (el : ProductEl) (st : State) : State :=
  match find_product (el_index el) (PRODUCTS_DATA st) with
  | None => st
  | Some (pos, product) =>
      mkState (PRODUCTS_DATA st) (pendingChanges st) (Some pos)
        (mkModal (description product)
           ((λ _, price product) <$> modalPrice (modal st))
           (open_row product <$> ALL_ATTRIBUTE_NAMES)
           "block")
        (doc st)
  end.

End WithAttributeNames.

(** *** What the operator does in the open modal *)

(** [commit] of [makeEditable]: the span takes the trimmed text typed. *)
Definition edit_description (typed : string) (st : State) : State :=
  mkState (PRODUCTS_DATA st) (pendingChanges st) (currentProductInModal st)
    (mkModal (trim typed) (modalPrice (modal st)) (modal_rows (modal st))
       (modal_display (modal st)))
    (doc st).

Definition edit_price (typed : string) (st : State) : State :=
  mkState (PRODUCTS_DATA st) (pendingChanges st) (currentProductInModal st)
    (mkModal (modalDescription (modal st))
       ((λ _, trim typed) <$> modalPrice (modal st))
       (modal_rows (modal st)) (modal_display (modal st)))
    (doc st).

(** Choosing an option of the [select] of attribute [attr]. *)
Definition choose_option (attr v : string) (st : State) : State :=
  mkState (PRODUCTS_DATA st) (pendingChanges st) (currentProductInModal st)
    (mkModal (modalDescription (modal st)) (modalPrice (modal st))
       ((λ r, if bool_decide (row_attrName r = attr)
              then mkRow attr v (row_input_value r) else r)
          <$> modal_rows (modal st))
       (modal_display (modal st)))
    (doc st).

(** Choosing the custom entry of the [select] and typing into its input. *)
Definition type_custom (attr typed : string) (st : State) : State :=
  mkState (PRODUCTS_DATA st) (pendingChanges st) (currentProductInModal st)
    (mkModal (modalDescription (modal st)) (modalPrice (modal st))
       ((λ r, if bool_decide (row_attrName r = attr)
              then mkRow attr "__NEW_VALUE__" typed else r)
          <$> modal_rows (modal st))
       (modal_display (modal st)))
    (doc st).

End Edit.

(** ** Committing the pending change set *)

Module Commit.
Import JsString Dom Edit.

(** [Object.entries(pendingChanges).flatMap(...)].  The order in which an
    object lists its keys is not modelled: the result is read as a
    collection. *)
Definition flatten (pc : PendingChanges) : list Change :=
  '(idx, attrs) ← map_to_list pc;
  (λ '(attr, val), mkChange idx attr val) <$> map_to_list attrs.

(** The click handler of [#applyChangesBtn], up to the request it sends. *)
Definition applyChanges (st : State) : State * list Effect :=
  let changesToSend := flatten (pendingChanges st) in
  if is_nil changesToSend then (st, [Alert "No changes to apply!"])
  else (st, [Fetch "/update_attributes" changesToSend]).

(** How the request ends: a JSON body with its [success] and [message], or a
    rejection of [fetch] or of [r.json()] with the text of its error. *)
Inductive Response :=
  | Replied (success : bool) (message : option string)
  | Rejected (err : string).

(** The [then] and [catch] continuations of the request. *)
Definition onResponse (r : Response) (st : State) : State * list Effect :=
  match r with
  | Replied true _ =>
      (st, [Alert "✅ Changes have been applied successfully."; Reload])
  | Replied false message => (st, [Alert ("Error: " +:+ js_string message)])
  | Rejected err => (st, [Alert ("Request failed: " +:+ err)])
  end.

(** The request did not succeed, and the text that came with the failure. *)
Definition failed (r : Response) : bool :=
  match r with
  | Replied true _ => false
  | _ => true
  end.

Definition failure_text (r : Response) : string :=
  match r with
  | Replied _ message => js_string message
  | Rejected err => err
  end.

End Commit.

(** ** A small catalog

    Two records, two attributes and two retail flags, used by the closed
    examples below. *)

Module Sample.
Import JsString Dom Filter Sort Edit Commit.

Definition names : list string := ["ATT Color"; "ATT Size"].

Definition shirt : Product :=
  let attrs : gmap string string :=
    {[ "ATT Color" := "Red"; "ATT Size" := "M" ]} in
  mkProduct 1 "Red shirt" "12.50" attrs "Red shirt" "12.50" attrs None.

Definition hat : Product :=
  let attrs : gmap string string :=
    {[ "ATT Color" := "Blue"; "ATT Size" := "L" ]} in
  mkProduct 2 "Blue hat" "8" attrs "Blue hat" "8" attrs (Some "hat.png").

Definition tile (p : Product) (flags : gmap string string) : ProductEl :=
  mkProductEl (original_index p)
    (flags
     ∪ {[ "data-att_color" := js_string (attributes p !! "ATT Color");
          "data-att_size" := js_string (attributes p !! "ATT Size") ]})
    ""
    (Some (mkText (description p) false))
    (Some (mkText ("$" +:+ price p) false))
    [mkSpan "ATT Color" (text_of (attributes p !! "ATT Color"))
       (js_string (attributes p !! "ATT Color")) false;
     mkSpan "ATT Size" (text_of (attributes p !! "ATT Size"))
       (js_string (attributes p !! "ATT Size")) false].

Definition shirt_tile : ProductEl :=
  tile shirt {[ "data-walmart" := "True"; "data-target" := "FALSE" ]}.

Definition hat_tile : ProductEl :=
  tile hat {[ "data-walmart" := "false"; "data-target" := "true" ]}.

Definition control (vals options : list string) : SelectEl :=
  mkSelect vals ((λ v, mkOption v false) <$> options).

Definition page : Doc :=
  mkDoc
    {[ "filter-ATT_Color" := control ["All"] ["All"; "Red"; "Blue"; "Green"];
       "filter-ATT_Size" := control ["All"] ["All"; "M"; "L"];
       "filter-retail" := control ["All"] ["All"; "walmart"; "target"] ]}
    [shirt_tile; hat_tile].

(** The page after the operator picks [Red] in the colour control. *)
Definition red_page : Doc :=
  filter_events names page [("filter-ATT_Color", Select "Red")].

(** Tiles that carry a price text and nothing else. *)
Definition priced (index : Z) (text : string) : ProductEl :=
  mkProductEl index ∅ "" None (Some (mkText text false)) [].

Definition price_grid (texts : list string) : Doc :=
  mkDoc ∅ ((λ t, priced 0 t) <$> texts).

Definition start : State :=
  mkState [shirt; hat] ∅ None (mkModal "" (Some "") [] "none") page.

Definition save : State → State * list Effect := saveModalChanges names.

(** Open the shirt, retitle it and save; open it again, type the first title
    back and save. *)
Definition retitled : State :=
  (save (edit_description "Crimson shirt" (openModal names shirt_tile start))).1.

Definition reverted : State :=
  (save (edit_description "Red shirt" (openModal names shirt_tile retitled))).1.

(** Open the shirt, retitle it and type a price that does not validate; the
    same with the price left alone. *)
Definition retitled_bad_price : State :=
  edit_price "$12" (edit_description "Crimson shirt"
                      (openModal names shirt_tile start)).

Definition retitled_only : State :=
  edit_description "Crimson shirt" (openModal names shirt_tile start).

End Sample.

(** ** The legacy attribute sort *)

Module Legacy.
Import JsString Dom Sort.

Section WithCollation.
Variable localeCompare : string → string → Z.

(** [window.sortByAttr(attr)], kept by [setupSortButtons]. *)
Definition sortByAttr (attr : string) (doc : Doc) : Doc :=
  mkDoc (selects doc)
    (array_sort
       (λ a b,
          Fin (inject_Z
                 (localeCompare
                    (or_empty (getAttribute a ("data-" +:+ attr)))
                    (or_empty (getAttribute b ("data-" +:+ attr))))))
       (grid doc)).

End WithCollation.

End Legacy.

(** ** A record with a gap

    A record that has no size, for the closed examples on missing values. *)

Module Scenario.
Import JsString Dom Filter Sort Edit Commit.

Definition scarf : Product :=
  let attrs : gmap string string := {[ "ATT Color" := "Green" ]} in
  mkProduct 3 "Green scarf" "5" attrs "Green scarf" "5" attrs None.

Definition scarf_tile : ProductEl :=
  mkProductEl 3 {[ "data-att_color" := "Green" ]} ""
    (Some (mkText "Green scarf" false)) (Some (mkText "$5" false))
    [mkSpan "ATT Color" "Green" "Green" false;
     mkSpan "ATT Size" "" "undefined" false].

Definition start : State :=
  mkState [Sample.shirt; Sample.hat; scarf] ∅ None
    (mkModal "" (Some "") [] "none")
    (mkDoc (selects Sample.page)
       [Sample.shirt_tile; Sample.hat_tile; scarf_tile]).

(** The same page without a [#modalPrice]. *)
Definition start_without_price_node : State :=
  mkState (PRODUCTS_DATA start) ∅ None (mkModal "" None [] "none") (doc start).

End Scenario.

(** ** Notions used to state properties *)

Module Notions.
Import JsString Dom Filter Sort Edit.

(** What of a record is fixed when the page loads. *)
Definition pristine (p : Product)
  : Z * string * string * gmap string string * option string :=
  (original_index p, original_description p, original_price p,
   original_attributes p, image_filename p).

End Notions.

(** ** What faceting does to one control *)

Module Facets.
Import JsString Dom Filter.




End Facets.

(** * Properties *)

Import JsString Price Dom Filter Sort Edit Commit.

(** ** Strings *)

Lemma append_cons c a b : String c a +:+ b = String c (a +:+ b).
Proof. reflexivity. Qed.

Lemma append_empty_l s : "" +:+ s = s.
Proof. reflexivity. Qed.

Lemma append_empty_r s : s +:+ "" = s.
Proof. induction s as [|c s IH]; [done|]. by rewrite append_cons, IH. Qed.

Lemma is_empty_true s : is_empty s = true ↔ s = "".
Proof. destruct s; simpl; split; congruence. Qed.

Lemma skip_digits_all s : all_digits s = true → skip_digits s = "".
Proof.
  induction s as [|c s IH]; simpl; [done|].
  destruct (is_digit c); simpl; [exact IH | discriminate].
Qed.

Lemma skip_digits_empty s : skip_digits s = "" → all_digits s = true.
Proof.
  induction s as [|c s IH]; simpl; [done|].
  destruct (is_digit c); simpl; [exact IH | discriminate].
Qed.

Lemma take_digits_all s : all_digits (take_digits s) = true.
Proof.
  induction s as [|c s IH]; simpl; [done|].
  destruct (is_digit c) eqn:E; simpl; [by rewrite E | done].
Qed.

Lemma take_skip_digits s : s = take_digits s +:+ skip_digits s.
Proof.
  induction s as [|c s IH]; simpl; [done|].
  destruct (is_digit c); [by rewrite append_cons, <- IH | done].
Qed.

Lemma skip_digits_dot a b :
  all_digits a = true → skip_digits (a +:+ String "." b) = String "." b.
Proof.
  induction a as [|c a IH]; simpl; [done|].
  intros [Hc Ha]%andb_true_iff. rewrite Hc. auto.
Qed.

(** ** Price validation *)

Lemma numeric_regex_test_pattern s :
  numeric_regex_test s = true ↔ numeric_pattern s.
Proof.
  split.
  - destruct s as [|c s1]; simpl; [discriminate|].
    intros [Hc Hrest]%andb_true_iff.
    exists (String c (take_digits s1)). split.
    { split; [simpl; by rewrite Hc, take_digits_all | discriminate]. }
    pose proof (take_skip_digits s1) as Hs1.
    destruct (skip_digits s1) as [|d r] eqn:Hskip.
    { left. by rewrite Hs1 at 1; rewrite append_empty_r. }
    destruct (Ascii.eqb_spec d ".") as [->|Hd].
    + destruct r as [|e s2]; [discriminate|].
      apply andb_true_iff in Hrest as [He Hs2].
      apply is_empty_true, skip_digits_empty in Hs2.
      right. exists (String e s2). split.
      { split; [simpl; by rewrite He, Hs2 | discriminate]. }
      by rewrite Hs1 at 1.
    + exfalso. destruct d as [[] [] [] [] [] [] [] []]; try discriminate.
      by apply Hd.
  - intros (ip & [Hip Hne] & Hs).
    destruct ip as [|c ip']; [done|]. simpl in Hip.
    apply andb_true_iff in Hip as [Hc Hip].
    destruct Hs as [->|(fp & [Hfp Hfne] & ->)]; simpl; rewrite Hc; simpl.
    + by rewrite skip_digits_all.
    + destruct fp as [|d fp']; [done|]. simpl in Hfp.
      apply andb_true_iff in Hfp as [Hd Hfp].
      change ("." +:+ String d fp') with (String "." (String d fp')).
      rewrite skip_digits_dot by done.
      by rewrite Hd, skip_digits_all.
Qed.

Lemma price_accepted_spec raw :
  price_accepted raw = true ↔ raw = "" ∨ numeric_pattern raw.
Proof.
  unfold price_accepted. rewrite <- numeric_regex_test_pattern.
  destruct raw as [|c r]; [by split; auto|].
  destruct (numeric_regex_test (String c r)); cbn [is_empty negb andb].
  - split; auto.
  - split; [discriminate | intros [?|?]; discriminate].
Qed.

Lemma price_accepted_no_dollar s : price_accepted s = true → strip_dollar s = s.
Proof.
  destruct s as [|c r]; [done|].
  unfold price_accepted. cbn [is_empty negb andb].
  destruct (Ascii.eqb_spec c "$") as [->|Hc]; [discriminate|].
  intros _. destruct c as [[] [] [] [] [] [] [] []]; try reflexivity.
  by destruct Hc.
Qed.

(** ** The pending change set *)

Lemma pending_value_ensure idx pc i f :
  pending_value (ensure_entry idx pc) i f = pending_value pc i f.
Proof.
  unfold pending_value, ensure_entry.
  destruct (decide (i = idx)) as [->|Hne].
  - rewrite lookup_insert_eq. by destruct (pc !! idx).
  - by rewrite lookup_insert_ne.
Qed.

Lemma pending_value_set idx f v pc i g :
  pending_value (set_pending idx f v pc) i g =
  if decide (i = idx ∧ g = f) then Some v else pending_value pc i g.
Proof.
  unfold pending_value, set_pending.
  destruct (decide (i = idx)) as [->|Hne].
  - rewrite lookup_insert_eq. simpl.
    destruct (decide (g = f)) as [->|Hg].
    + rewrite lookup_insert_eq. by rewrite decide_True.
    + rewrite lookup_insert_ne; [|done]. rewrite decide_False; [|by intros [??]].
      by destruct (pc !! idx).
  - rewrite lookup_insert_ne; [|done]. rewrite decide_False; [done|by intros [??]].
Qed.

Lemma writes_only_changes_refl idx s : writes_only_changes idx s s.
Proof. split; [intros i g []; done | auto]. Qed.

Lemma pending_value_set_eq idx f v pc :
  pending_value (set_pending idx f v pc) idx f = Some v.
Proof. rewrite pending_value_set. by rewrite decide_True. Qed.

Lemma pending_value_set_ne idx f v pc i g :
  ¬ (i = idx ∧ g = f) →
  pending_value (set_pending idx f v pc) i g = pending_value pc i g.
Proof. intros H. rewrite pending_value_set. by rewrite decide_False. Qed.

Lemma pending_value_set_mono idx f v pc i g :
  is_Some (pending_value pc i g) →
  is_Some (pending_value (set_pending idx f v pc) i g).
Proof. rewrite pending_value_set. case_decide; eauto. Qed.

Lemma save_description_spec idx m pc cur :
  let s' := save_description idx m (pc, cur) in
  writes_only_changes idx (pc, cur) s'
  ∧ price s'.2 = price cur ∧ attributes s'.2 = attributes cur
  ∧ description s'.2 = trim (modalDescription m).
Proof.
  unfold save_description. case_bool_decide as Hd; simpl.
  - split_and!; try done. split; simpl.
    + intros i g Hne.
      destruct (decide (i = idx ∧ g = "description")) as [[-> ->]|Hig].
      * split; [done|]. left. done.
      * by rewrite pending_value_set_ne in Hne.
    + intros i g. apply pending_value_set_mono.
  - split_and!;
      first [apply writes_only_changes_refl | done | by apply dec_stable in Hd].
Qed.

Lemma save_price_spec idx m pc cur :
  let s' := save_price idx m (pc, cur) in
  writes_only_changes idx (pc, cur) s'
  ∧ description s'.2 = description cur ∧ attributes s'.2 = attributes cur
  ∧ (∀ text, modalPrice m = Some text → price s'.2 = trim text).
Proof.
  unfold save_price. destruct (modalPrice m) as [text|]; simpl;
    [|split_and!; [apply writes_only_changes_refl | done..]].
  case_bool_decide as Hd; simpl.
  - split_and!; try done.
    + split; simpl.
      * intros i g Hne.
        destruct (decide (i = idx ∧ g = "price")) as [[-> ->]|Hig].
        -- split; [done|]. right; left. done.
        -- by rewrite pending_value_set_ne in Hne.
      * intros i g. apply pending_value_set_mono.
    + by intros ? [= <-].
  - split_and!;
      first [apply writes_only_changes_refl | done
            | by intros ? [= <-]].
Qed.

Lemma save_row_spec idx pc cur r :
  let s' := save_row idx (pc, cur) r in
  (∀ i g, pending_value s'.1 i g ≠ pending_value pc i g →
          i = idx ∧ g = row_attrName r
          ∧ attributes s'.2 !! g ≠ attributes cur !! g)
  ∧ (∀ i g, is_Some (pending_value pc i g) → is_Some (pending_value s'.1 i g))
  ∧ (∀ g, g ≠ row_attrName r → attributes s'.2 !! g = attributes cur !! g)
  ∧ description s'.2 = description cur ∧ price s'.2 = price cur
  ∧ attributes s'.2 !! row_attrName r = Some (row_value r).
Proof.
  unfold save_row. case_bool_decide as Hd; simpl.
  - split_and!; try done.
    + intros i g Hne.
      destruct (decide (i = idx ∧ g = row_attrName r)) as [[-> ->]|Hig].
      * split_and!; try done. rewrite lookup_insert_eq. congruence.
      * by rewrite pending_value_set_ne in Hne.
    + intros i g. apply pending_value_set_mono.
    + intros g Hg. by rewrite lookup_insert_ne.
    + by rewrite lookup_insert_eq.
  - split_and!; first [done | by intros i g []].
Qed.

Lemma save_rows_spec idx rows : ∀ pc cur,
  NoDup (row_attrName <$> rows) →
  let s' := fold_left (save_row idx) rows (pc, cur) in
  (∀ i g, pending_value s'.1 i g ≠ pending_value pc i g →
          i = idx ∧ attributes s'.2 !! g ≠ attributes cur !! g)
  ∧ (∀ i g, is_Some (pending_value pc i g) → is_Some (pending_value s'.1 i g))
  ∧ (∀ g, g ∉ row_attrName <$> rows →
          attributes s'.2 !! g = attributes cur !! g)
  ∧ description s'.2 = description cur ∧ price s'.2 = price cur
  ∧ (∀ r, r ∈ rows → attributes s'.2 !! row_attrName r = Some (row_value r)).
Proof.
  induction rows as [|r rows IH]; intros pc cur Hnd.
  { simpl. split_and!;
      first [done | by intros i g [] | by intros r ?%not_elem_of_nil]. }
  rewrite fmap_cons in Hnd. apply NoDup_cons in Hnd as [Hr Hnd].
  cbn [fold_left]. rewrite fmap_cons.
  pose proof (save_row_spec idx pc cur r)
    as (Hw & Hm & Ho & Hdesc & Hprice & Hval).
  destruct (save_row idx (pc, cur) r) as [pc1 cur1] eqn:Hstep.
  cbn [fst snd] in *.
  specialize (IH pc1 cur1 Hnd) as (Hw' & Hm' & Ho' & Hdesc' & Hprice' & Hval').
  split_and!; [| | | | |
    intros r' [->|Hin]%elem_of_cons; [by rewrite Ho'|by apply Hval']].
  - intros i g H.
    destruct (decide (pending_value pc1 i g = pending_value pc i g)) as [He|Hn].
    + rewrite <- He in H. apply Hw' in H as [-> Hch]. split; [done|].
      destruct (decide (g = row_attrName r)) as [->|Hg].
      * exfalso. apply Hch, Ho'. done.
      * by rewrite <- (Ho g Hg).
    + apply Hw in Hn as (-> & -> & Hch). split; [done|]. by rewrite Ho'.
  - intros i g ?. apply Hm', Hm. done.
  - intros g Hg. apply not_elem_of_cons in Hg as [Hg1 Hg2].
    rewrite Ho' by done. by apply Ho.
  - congruence.
  - congruence.
Qed.

(** ** The save handler *)

Section SaveHandler.
Variable ALL_ATTRIBUTE_NAMES : list string.

Local Abbreviation save := (saveModalChanges ALL_ATTRIBUTE_NAMES).

(** The three blocks in sequence. *)
Lemma save_blocks_spec idx m pc cur :
  NoDup (row_attrName <$> modal_rows m) →
  let s' :=
    save_attributes idx m (save_price idx m (save_description idx m (pc, cur))) in
  writes_only_changes idx (pc, cur) s' ∧ holds_entered m s'.2.
Proof.
  intros Hnd.
  pose proof (save_description_spec idx m pc cur)
    as ([Hw1 Hm1] & Hp1 & Ha1 & Hd1).
  destruct (save_description idx m (pc, cur)) as [pc1 cur1].
  pose proof (save_price_spec idx m pc1 cur1) as ([Hw2 Hm2] & Hd2 & Ha2 & Hp2).
  destruct (save_price idx m (pc1, cur1)) as [pc2 cur2].
  pose proof (save_rows_spec idx (modal_rows m) pc2 cur2 Hnd)
    as (Hw3 & Hm3 & _ & Hd3 & Hp3 & Hv3).
  unfold save_attributes.
  destruct (fold_left (save_row idx) (modal_rows m) (pc2, cur2)) as [pc3 cur3].
  cbn [fst snd] in *. split; [split; cbn [fst snd]|].
  3:{ split_and!; [congruence| |done].
      intros text Ht. rewrite Hp3. by apply Hp2. }
  - intros i g H.
    destruct (decide (pending_value pc3 i g = pending_value pc2 i g)) as [E3|N3].
    + rewrite E3 in H.
      destruct (decide (pending_value pc2 i g = pending_value pc1 i g))
        as [E2|N2].
      * rewrite E2 in H. apply Hw1 in H as [-> Hch]. split; [done|].
        destruct Hch as [[-> Hch]|[[-> Hch]|Hch]].
        -- left. split; [done|]. congruence.
        -- exfalso. apply Hch. done.
        -- exfalso. apply Hch. by rewrite Ha1.
      * apply Hw2 in N2 as [-> Hch]. split; [done|].
        destruct Hch as [[-> Hch]|[[-> Hch]|Hch]].
        -- exfalso. apply Hch. done.
        -- right; left. split; [done|]. congruence.
        -- exfalso. apply Hch. by rewrite Ha2.
    + apply Hw3 in N3 as [-> Hch]. split; [done|].
      right; right. by rewrite <- Ha1, <- Ha2.
  - intros i g ?. apply Hm3, Hm2, Hm1. done.
Qed.

Lemma save_rejected st pos cur text :
  currentProductInModal st = Some pos →
  PRODUCTS_DATA st !! pos = Some cur →
  modalPrice (modal st) = Some text →
  price_accepted (trim text) = false →
  save st =
    (mkState (PRODUCTS_DATA st)
       (ensure_entry (original_index cur) (pendingChanges st))
       (currentProductInModal st) (modal st) (doc st),
     [Alert validation_message]).
Proof.
  intros Hc Hp Hm Hacc. unfold saveModalChanges.
  rewrite Hc, Hp, Hm, Hacc. reflexivity.
Qed.

Lemma save_accepted st pos cur text :
  currentProductInModal st = Some pos →
  PRODUCTS_DATA st !! pos = Some cur →
  modalPrice (modal st) = Some text →
  price_accepted (trim text) = true →
  let idx := original_index cur in
  let s' :=
    save_attributes idx (modal st)
      (save_price idx (modal st)
        (save_description idx (modal st)
          (ensure_entry idx (pendingChanges st), cur))) in
  let out := save st in
  PRODUCTS_DATA out.1 = <[pos := s'.2]> (PRODUCTS_DATA st)
  ∧ pendingChanges out.1 = s'.1
  ∧ (out.2 = [] ∨ out.2 = [TypeError]).
Proof.
  intros Hc Hp Hm Hacc. unfold saveModalChanges.
  rewrite Hc, Hp, Hm, Hacc. cbn [negb].
  destruct (save_attributes _ _ _) as [pc' cur'].
  destruct (updateMainGridView _ _ _ _); cbn [fst snd PRODUCTS_DATA pendingChanges];
    auto.
Qed.

Lemma save_pending_spec st :
  NoDup (row_attrName <$> modal_rows (modal st)) →
  let st' := (save st).1 in
  (∀ i f, is_Some (pending_value (pendingChanges st) i f) →
          is_Some (pending_value (pendingChanges st') i f))
  ∧ (∀ i f, pending_value (pendingChanges st') i f
              ≠ pending_value (pendingChanges st) i f →
       ∃ pos cur cur',
         currentProductInModal st = Some pos
         ∧ PRODUCTS_DATA st !! pos = Some cur
         ∧ PRODUCTS_DATA st' !! pos = Some cur'
         ∧ i = original_index cur
         ∧ field_changed f cur cur'
         ∧ holds_entered (modal st) cur').
Proof.
  intros Hnd.
  destruct (currentProductInModal st) as [pos|] eqn:Hc;
    [|unfold saveModalChanges; rewrite Hc; simpl; split; [auto | by intros i f []]].
  destruct (PRODUCTS_DATA st !! pos) as [cur|] eqn:Hp;
    [|unfold saveModalChanges; rewrite Hc, Hp; simpl; split;
      [auto | by intros i f []]].
  destruct (modalPrice (modal st)) as [text|] eqn:Hm.
  2:{ unfold saveModalChanges; rewrite Hc, Hp, Hm; simpl. split.
      - intros i f. by rewrite pending_value_ensure.
      - intros i f. by rewrite pending_value_ensure. }
  destruct (price_accepted (trim text)) eqn:Hacc.
  2:{ rewrite (save_rejected st pos cur text) by done. simpl. split.
      - intros i f. by rewrite pending_value_ensure.
      - intros i f. by rewrite pending_value_ensure. }
  pose proof (save_accepted st pos cur text Hc Hp Hm Hacc) as (Hps & Hpc & _).
  pose proof (save_blocks_spec (original_index cur) (modal st)
                (ensure_entry (original_index cur) (pendingChanges st)) cur Hnd)
    as [[Hw Hmono] Hentered].
  cbn zeta in *. rewrite Hpc.
  destruct (save_attributes _ _ _) as [pc' cur'].
  cbn [fst snd] in *. split.
  - intros i f H. apply Hmono. by rewrite pending_value_ensure.
  - intros i f H.
    rewrite <- (pending_value_ensure (original_index cur) (pendingChanges st))
      in H.
    apply Hw in H as [-> Hch].
    exists pos, cur, cur'. split_and!; try done.
    rewrite Hps. apply list_lookup_insert_eq. by eapply lookup_lt_Some.
Qed.

End SaveHandler.

(** ** Claims about the save handler *)

(** C1 (as amended).  A save never removes an entry of the pending change
    set.  It changes the entry of a record and field only for the record in
    the modal and only when it changes that field of the record; the record
    then holds what was entered, so the entered value differed from the
    record's current value at that save.  The original value plays no part:
    nothing is cleared when a field returns to it. *)
Theorem save_writes_entries_for_changes_only (names : list string) (st : State) :
  NoDup (row_attrName <$> modal_rows (modal st)) →
  let st' := (saveModalChanges names st).1 in
  (∀ i f, is_Some (pending_value (pendingChanges st) i f) →
          is_Some (pending_value (pendingChanges st') i f))
  ∧ (∀ i f, pending_value (pendingChanges st') i f
              ≠ pending_value (pendingChanges st) i f →
       ∃ pos cur cur',
         currentProductInModal st = Some pos
         ∧ PRODUCTS_DATA st !! pos = Some cur
         ∧ PRODUCTS_DATA st' !! pos = Some cur'
         ∧ i = original_index cur
         ∧ field_changed f cur cur'
         ∧ holds_entered (modal st) cur').
Proof. apply save_pending_spec. Qed.

Lemma save_writes_entries_for_changes_only_witness :
  let st := edit_description "Red shirt"
              (openModal Sample.names Sample.shirt_tile Sample.retitled) in
  let st' := (saveModalChanges Sample.names st).1 in
  (∀ i f, is_Some (pending_value (pendingChanges st) i f) →
          is_Some (pending_value (pendingChanges st') i f))
  ∧ (∀ i f, pending_value (pendingChanges st') i f
              ≠ pending_value (pendingChanges st) i f →
       ∃ pos cur cur',
         currentProductInModal st = Some pos
         ∧ PRODUCTS_DATA st !! pos = Some cur
         ∧ PRODUCTS_DATA st' !! pos = Some cur'
         ∧ i = original_index cur
         ∧ field_changed f cur cur'
         ∧ holds_entered (modal st) cur').
Proof.
  apply (save_writes_entries_for_changes_only Sample.names).
  apply (bool_decide_unpack _). vm_compute. exact I.
Defined.

(** C1 as stated fails: the shirt is retitled and saved, then given its first
    title back and saved.  The record is again exactly as loaded, and its
    description is still in the pending change set. *)
Lemma reverted_title_stays_pending :
  PRODUCTS_DATA Sample.reverted !! 0%nat = Some Sample.shirt
  ∧ description Sample.shirt = original_description Sample.shirt
  ∧ pending_value (pendingChanges Sample.reverted) 1 "description"
    = Some "Red shirt".
Proof. vm_compute. auto. Qed.

(** C3 (as amended).  When the entered price fails validation, the whole save
    is aborted: the validation message is reported and nothing entered in the
    modal is recorded.  The catalog, the modal, the grid and every entry of
    the pending change set are as before the click. *)
Theorem invalid_price_aborts_whole_save
    (names : list string) (st : State) (pos : nat) (cur : Product)
    (text : string) :
  currentProductInModal st = Some pos →
  PRODUCTS_DATA st !! pos = Some cur →
  modalPrice (modal st) = Some text →
  ¬ (trim text = "" ∨ numeric_pattern (trim text)) →
  let out := saveModalChanges names st in
  out.2 = [Alert validation_message]
  ∧ PRODUCTS_DATA out.1 = PRODUCTS_DATA st
  ∧ currentProductInModal out.1 = currentProductInModal st
  ∧ modal out.1 = modal st
  ∧ doc out.1 = doc st
  ∧ ∀ i f, pending_value (pendingChanges out.1) i f
           = pending_value (pendingChanges st) i f.
Proof.
  intros Hc Hp Hm Hbad.
  assert (price_accepted (trim text) = false) as Hacc.
  { destruct (price_accepted (trim text)) eqn:E; [|done].
    by apply price_accepted_spec in E. }
  cbn zeta. rewrite (save_rejected names st pos cur text) by done.
  cbn [fst snd PRODUCTS_DATA currentProductInModal modal doc pendingChanges].
  split_and!; try done. intros i f. apply pending_value_ensure.
Qed.

Lemma invalid_price_aborts_whole_save_witness :
  let out := saveModalChanges Sample.names Sample.retitled_bad_price in
  out.2 = [Alert validation_message]
  ∧ PRODUCTS_DATA out.1 = PRODUCTS_DATA Sample.retitled_bad_price
  ∧ currentProductInModal out.1
    = currentProductInModal Sample.retitled_bad_price
  ∧ modal out.1 = modal Sample.retitled_bad_price
  ∧ doc out.1 = doc Sample.retitled_bad_price
  ∧ ∀ i f, pending_value (pendingChanges out.1) i f
           = pending_value (pendingChanges Sample.retitled_bad_price) i f.
Proof.
  apply (invalid_price_aborts_whole_save Sample.names
           Sample.retitled_bad_price 0 Sample.shirt "$12").
  - reflexivity.
  - reflexivity.
  - reflexivity.
  - intros H. apply price_accepted_spec in H. vm_compute in H. discriminate.
Defined.

(** C3 as stated fails: with a new title and the price text [$12] in the
    modal, the save reports the validation message and the new title is not
    recorded, while the same save with the price left alone records it. *)
Lemma invalid_price_drops_title_edit :
  (Sample.save Sample.retitled_bad_price).2 = [Alert validation_message]
  ∧ pending_value
      (pendingChanges (Sample.save Sample.retitled_bad_price).1) 1 "description"
    = None
  ∧ PRODUCTS_DATA (Sample.save Sample.retitled_bad_price).1 !! 0%nat
    = Some Sample.shirt
  ∧ pending_value
      (pendingChanges (Sample.save Sample.retitled_only).1) 1 "description"
    = Some "Crimson shirt".
Proof. vm_compute. auto. Qed.

(** C6.  With a record in the modal, the save goes past the price check
    exactly when the trimmed price text is empty or matches the numeric
    pattern (digits, then optionally one point and digits).  Otherwise the
    handler reports the validation message and records nothing.  [12.50]
    passes; [$12], [abc] and [12.5.6] do not. *)
Theorem price_check_gates_save
    (names : list string) (st : State) (pos : nat) (cur : Product)
    (text : string) :
  currentProductInModal st = Some pos →
  PRODUCTS_DATA st !! pos = Some cur →
  modalPrice (modal st) = Some text →
  let rawPrice := trim text in
  let out := saveModalChanges names st in
  ((rawPrice = "" ∨ numeric_pattern rawPrice)
     ↔ Alert validation_message ∉ out.2)
  ∧ (¬ (rawPrice = "" ∨ numeric_pattern rawPrice) →
       out.2 = [Alert validation_message]
       ∧ PRODUCTS_DATA out.1 = PRODUCTS_DATA st
       ∧ ∀ i f, pending_value (pendingChanges out.1) i f
                = pending_value (pendingChanges st) i f)
  ∧ price_accepted "12.50" = true
  ∧ price_accepted "$12" = false
  ∧ price_accepted "abc" = false
  ∧ price_accepted "12.5.6" = false.
Proof.
  intros Hc Hp Hm. cbn zeta. rewrite <- price_accepted_spec.
  split_and!; try reflexivity.
  - destruct (price_accepted (trim text)) eqn:Hacc.
    + pose proof (save_accepted names st pos cur text Hc Hp Hm Hacc)
        as (_ & _ & Heff).
      cbn zeta in Heff. split; [intros _|done].
      destruct Heff as [-> | ->]; [apply not_elem_of_nil|].
      by intros ?%list_elem_of_singleton.
    + rewrite (save_rejected names st pos cur text) by done.
      split; [done|]. intros H. exfalso. apply H.
      by apply list_elem_of_singleton.
  - intros Hacc. apply not_true_is_false in Hacc.
    rewrite (save_rejected names st pos cur text) by done.
    cbn [fst snd PRODUCTS_DATA pendingChanges].
    split_and!; try done. intros i f. apply pending_value_ensure.
Qed.

Lemma price_check_gates_save_witness :
  let st := edit_description "Crimson shirt"
              (openModal Sample.names Sample.shirt_tile Sample.start) in
  let out := saveModalChanges Sample.names st in
  (("12.50" = "" ∨ numeric_pattern "12.50")
     ↔ Alert validation_message ∉ out.2)
  ∧ (¬ ("12.50" = "" ∨ numeric_pattern "12.50") →
       out.2 = [Alert validation_message]
       ∧ PRODUCTS_DATA out.1 = PRODUCTS_DATA st
       ∧ ∀ i f, pending_value (pendingChanges out.1) i f
                = pending_value (pendingChanges st) i f)
  ∧ price_accepted "12.50" = true
  ∧ price_accepted "$12" = false
  ∧ price_accepted "abc" = false
  ∧ price_accepted "12.5.6" = false.
Proof.
  apply (price_check_gates_save Sample.names
           (edit_description "Crimson shirt"
              (openModal Sample.names Sample.shirt_tile Sample.start))
           0 Sample.shirt "12.50"); reflexivity.
Defined.

Lemma save_rows_other_field idx g rows : ∀ pc cur,
  g ∉ row_attrName <$> rows →
  let s' := fold_left (save_row idx) rows (pc, cur) in
  (∀ i, pending_value s'.1 i g = pending_value pc i g)
  ∧ price s'.2 = price cur.
Proof.
  induction rows as [|r rows IH]; intros pc cur Hg; [done|].
  rewrite fmap_cons in Hg. apply not_elem_of_cons in Hg as [Hr Hg].
  cbn [fold_left].
  pose proof (save_row_spec idx pc cur r) as (Hw & _ & _ & _ & Hprice & _).
  destruct (save_row idx (pc, cur) r) as [pc1 cur1].
  cbn [fst snd] in *.
  specialize (IH pc1 cur1 Hg) as [IHp IHprice]. split; [|congruence].
  intros i. rewrite IHp.
  destruct (decide (pending_value pc1 i g = pending_value pc i g)) as [|Hn];
    [done|].
  by apply Hw in Hn as (_ & ? & _).
Qed.




(** Through the whole handler the two values coincide: a price that passes
    the check has no [$] to remove.  A save of the price [9.99]: *)
Example accepted_price_saved_as_entered :
  let st := edit_price "9.99"
              (openModal Sample.names Sample.shirt_tile Sample.start) in
  let st' := (Sample.save st).1 in
  pending_value (pendingChanges st') 1 "price" = Some "9.99"
  ∧ price <$> PRODUCTS_DATA st' !! 0%nat = Some "9.99".
Proof. vm_compute. auto. Qed.

(** ** Committing *)

Lemma elem_of_flatten pc idx attr val :
  mkChange idx attr val ∈ flatten pc ↔ pending_value pc idx attr = Some val.
Proof.
  unfold flatten, pending_value. rewrite list_elem_of_bind. split.
  - intros ([i m] & Hin & Hm). apply elem_of_map_to_list in Hm.
    apply list_elem_of_fmap in Hin as ([a v] & [= -> -> ->] & Hav).
    apply elem_of_map_to_list in Hav. rewrite Hm. done.
  - destruct (pc !! idx) as [m|] eqn:Hm; [|done]. simpl. intros Hv.
    exists (idx, m). split; [|by apply elem_of_map_to_list].
    apply list_elem_of_fmap. exists (attr, val).
    split; [done|]. by apply elem_of_map_to_list.
Qed.

Lemma NoDup_flatten pc : NoDup (flatten pc).
Proof.
  unfold flatten. apply NoDup_bind.
  - intros [i1 m1] [i2 m2] c H1 H2 Hc1 Hc2.
    apply elem_of_map_to_list in H1, H2.
    apply list_elem_of_fmap in Hc1 as ([a1 v1] & -> & _).
    apply list_elem_of_fmap in Hc2 as ([a2 v2] & [= -> _ _] & _).
    congruence.
  - intros [i m] _. apply NoDup_fmap_2_strong; [|apply NoDup_map_to_list].
    intros [a1 v1] [a2 v2] _ _ [= -> ->]. done.
  - apply NoDup_map_to_list.
Qed.

(** C7.  The flattened list holds exactly the entries of the pending change
    set, each once; the empty set flattens to the empty list; and with an
    empty list the commit action reports that there is nothing to apply and
    sends no request. *)
Theorem flatten_lists_pending_entries (st : State) :
  let pc := pendingChanges st in
  (∀ idx attr val,
     mkChange idx attr val ∈ flatten pc ↔ pending_value pc idx attr = Some val)
  ∧ NoDup (flatten pc)
  ∧ flatten ∅ = []
  ∧ (flatten pc = [] ↔ applyChanges st = (st, [Alert "No changes to apply!"]))
  ∧ (∀ url body, Fetch url body ∈ (applyChanges st).2 →
       url = "/update_attributes" ∧ body = flatten pc ∧ body ≠ []).
Proof.
  cbn zeta. split_and!.
  - intros. apply elem_of_flatten.
  - apply NoDup_flatten.
  - unfold flatten. by rewrite map_to_list_empty.
  - unfold applyChanges. destruct (flatten (pendingChanges st)); simpl; split;
      done.
  - intros url body. unfold applyChanges.
    destruct (flatten (pendingChanges st)) as [|c l]; simpl.
    + by intros [=]%list_elem_of_singleton.
    + by intros [= -> ->]%list_elem_of_singleton.
Qed.

(** C9.  When the request fails, by a reply without success or by a
    rejection, an alert carries the text that came with the failure and the
    page state, the pending change set with it, is what it was: the same
    changes go out on the next attempt. *)
Theorem failed_commit_keeps_pending (r : Response) (st : State) :
  failed r = true →
  let out := onResponse r st in
  pendingChanges out.1 = pendingChanges st
  ∧ out.1 = st
  ∧ (∃ lead, out.2 = [Alert (lead +:+ failure_text r)])
  ∧ applyChanges out.1 = applyChanges st.
Proof.
  intros Hf. destruct r as [[] message|err]; [done| |]; simpl;
    split_and!; eauto.
Qed.

Lemma failed_commit_keeps_pending_witness :
  let r := Replied false (Some "disk full") in
  let out := onResponse r Sample.retitled in
  pendingChanges out.1 = pendingChanges Sample.retitled
  ∧ out.1 = Sample.retitled
  ∧ (∃ lead, out.2 = [Alert (lead +:+ failure_text r)])
  ∧ applyChanges out.1 = applyChanges Sample.retitled.
Proof.
  apply (failed_commit_keeps_pending (Replied false (Some "disk full"))
           Sample.retitled).
  reflexivity.
Defined.

(** ** Filter controls *)

Section FilterControls.
Variable ALL_ATTRIBUTE_NAMES : list string.

Local Abbreviation apply_filters := (applyFilters ALL_ATTRIBUTE_NAMES).
















End FilterControls.



(** ** Filter evaluation *)

Lemma flag_is_true_spec p d : flag_is_true p d = true ↔ satisfies_flag p d.
Proof.
  unfold flag_is_true, satisfies_flag.
  destruct (getAttribute p ("data-" +:+ d)) as [v|].
  - rewrite bool_decide_eq_true. split; [eauto|]. by intros (? & [= <-] & ?).
  - split; [done|]. by intros (? & ? & ?).
Qed.

Lemma is_nil_true {A} (l : list A) : is_nil l = true ↔ l = [].
Proof. destruct l; simpl; split; congruence. Qed.

Lemma includes_value_spec val sel :
  includes_value val sel = true ↔ ∃ v, val = Some v ∧ v ∈ sel.
Proof.
  unfold includes_value, includes. destruct val as [x|].
  - rewrite bool_decide_eq_true. split; [eauto|]. by intros (? & [= <-] & ?).
  - split; [done|]. by intros (? & ? & ?).
Qed.

Lemma passes_filters_spec filters p :
  passes_filters filters p = true ↔
  ∀ key sel, (key, sel) ∈ filters → sel ≠ [] → "All" ∉ sel →
    ∃ v, getAttribute p ("data-" +:+ key) = Some v ∧ v ∈ sel.
Proof.
  induction filters as [|[key sel] rest IH]; simpl.
  { split; [|done]. by intros _ key sel ?%not_elem_of_nil. }
  destruct (negb (is_nil sel) && negb (includes "All" sel)
            && negb (includes_value (getAttribute p ("data-" +:+ key)) sel))
    eqn:Hblock.
  - split; [done|]. intros H. exfalso.
    apply andb_true_iff in Hblock as [[Hn Ha]%andb_true_iff Hv].
    apply negb_true_iff in Hn, Ha, Hv.
    destruct (H key sel) as (v & Hget & Hin); [by left| | |].
    + intros ->. done.
    + intros Hin. unfold includes in Ha. by rewrite bool_decide_true in Ha.
    + assert (includes_value (getAttribute p ("data-" +:+ key)) sel = true)
        as Ht by (apply includes_value_spec; eauto).
      congruence.
  - rewrite IH. split.
    + intros H k s [[= -> ->]|Hin]%elem_of_cons Hne HAll; [|by apply H].
      apply includes_value_spec.
      destruct (includes_value _ sel); [done|].
      rewrite andb_true_r in Hblock.
      apply andb_false_iff in Hblock as [Hn|Ha].
      * apply negb_false_iff, is_nil_true in Hn. done.
      * apply negb_false_iff in Ha. unfold includes in Ha.
        by apply bool_decide_eq_true in Ha.
    + intros H k s Hin. apply H. by right.
Qed.

Lemma show_product_spec filters retail p :
  show_product filters retail p = true ↔
  passes_filters filters p = true
  ∧ (retail ≠ [] → "All" ∉ retail → ∃ d, d ∈ retail ∧ satisfies_flag p d).
Proof.
  unfold show_product. destruct (passes_filters filters p); simpl;
    [|split; [done|by intros [? _]]].
  destruct (is_nil retail) eqn:Hn; simpl.
  { apply is_nil_true in Hn. split; [|done]. intros _. split; [done|]. done. }
  unfold includes. case_bool_decide as HAll; simpl.
  { split; [|done]. intros _. split; [done|]. done. }
  rewrite existsb_exists. split.
  - intros (d & Hd & Hf). split; [done|]. intros _ _. exists d.
    split; [by apply list_elem_of_In | by apply flag_is_true_spec].
  - intros [_ H]. destruct H as (d & Hd & Hf); [|done|].
    + intros ->. done.
    + exists d. split; [by apply list_elem_of_In | by apply flag_is_true_spec].
Qed.

Lemma elem_of_read_filters names doc key sel :
  (key, sel) ∈ read_filters names doc ↔
  ∃ A, A ∈ names ∧ key = sanitizeAttr A
       ∧ sel = jq_val doc ("filter-" +:+ sanitizeAttr A).
Proof.
  unfold read_filters. rewrite list_elem_of_fmap. split.
  - intros (A & [= -> ->] & HA). eauto.
  - intros (A & HA & -> & ->). eauto.
Qed.

(** The display that [applyFilters] gives a tile. *)
Lemma applyFilters_grid names doc :
  grid (applyFilters names doc) =
  (λ p, set_display
          (if show_product (read_filters names doc) (jq_val doc "filter-retail") p
           then "block" else "none") p) <$> grid doc.
Proof. reflexivity. Qed.

(** C4.  With no entry of the filter state empty, [applyFilters] shows a tile
    exactly when, for every attribute whose entry does not hold [All], the
    tile's value for the attribute is in the entry, and, if the flag entry
    does not hold [All], the tile satisfies one of the selected flags.  A tile
    without a value for an attribute is hidden by any entry of that attribute
    that does not hold [All], and no tile is hidden when every entry holds
    [All]. *)
Theorem visible_iff_filters_pass
    (names : list string) (doc : Doc) (i : nat) (p : ProductEl) :
  (∀ A, A ∈ names → jq_val doc ("filter-" +:+ sanitizeAttr A) ≠ []) →
  jq_val doc "filter-retail" ≠ [] →
  grid doc !! i = Some p →
  ∃ p', grid (applyFilters names doc) !! i = Some p'
    ∧ p' = set_display (el_display p') p
    ∧ (el_display p' = "block" ∨ el_display p' = "none")
    ∧ (el_display p' = "block" ↔
         (∀ A, A ∈ names →
            "All" ∉ jq_val doc ("filter-" +:+ sanitizeAttr A) →
            ∃ v, getAttribute p ("data-" +:+ sanitizeAttr A) = Some v
                 ∧ v ∈ jq_val doc ("filter-" +:+ sanitizeAttr A))
         ∧ ("All" ∉ jq_val doc "filter-retail" →
            ∃ d, d ∈ jq_val doc "filter-retail" ∧ satisfies_flag p d))
    ∧ (∀ A, A ∈ names →
         getAttribute p ("data-" +:+ sanitizeAttr A) = None →
         "All" ∉ jq_val doc ("filter-" +:+ sanitizeAttr A) →
         el_display p' = "none")
    ∧ ((∀ A, A ∈ names → "All" ∈ jq_val doc ("filter-" +:+ sanitizeAttr A)) →
       "All" ∈ jq_val doc "filter-retail" →
       el_display p' = "block").
Proof.
  intros Hentries Hretail Hp.
  set (shown := show_product (read_filters names doc)
                  (jq_val doc "filter-retail") p).
  assert (shown = true ↔
          (∀ A, A ∈ names →
             "All" ∉ jq_val doc ("filter-" +:+ sanitizeAttr A) →
             ∃ v, getAttribute p ("data-" +:+ sanitizeAttr A) = Some v
                  ∧ v ∈ jq_val doc ("filter-" +:+ sanitizeAttr A))
          ∧ ("All" ∉ jq_val doc "filter-retail" →
             ∃ d, d ∈ jq_val doc "filter-retail" ∧ satisfies_flag p d))
    as Hshown.
  { unfold shown. rewrite show_product_spec, passes_filters_spec. split.
    - intros [Hf Hr]. split; [|by apply Hr].
      intros A HA HAll. apply (Hf (sanitizeAttr A)); [|by apply Hentries|done].
      apply elem_of_read_filters. eauto.
    - intros [Hf Hr]. split; [|by intros _].
      intros key sel (A & HA & -> & ->)%elem_of_read_filters _ HAll.
      by apply Hf. }
  exists (set_display (if shown then "block" else "none") p).
  split_and!.
  - rewrite applyFilters_grid, list_lookup_fmap, Hp. done.
  - done.
  - simpl. destruct shown; auto.
  - rewrite <- Hshown. simpl. destruct shown; split; done.
  - intros A HA Hnone HAll. simpl. destruct shown; [|done].
    destruct Hshown as [[Hf _] _]; [done|].
    destruct (Hf A HA HAll) as (v & Hv & _). congruence.
  - intros HAll Hr. simpl.
    assert (shown = true) as ->; [|done].
    apply Hshown. split; [|done]. intros A HA Hno. destruct Hno. by apply HAll.
Qed.

Lemma visible_iff_filters_pass_witness :
  let doc := Sample.red_page in
  let p := set_display "none" Sample.hat_tile in
  ∃ p', grid (applyFilters Sample.names doc) !! 1%nat = Some p'
    ∧ p' = set_display (el_display p') p
    ∧ (el_display p' = "block" ∨ el_display p' = "none")
    ∧ (el_display p' = "block" ↔
         (∀ A, A ∈ Sample.names →
            "All" ∉ jq_val doc ("filter-" +:+ sanitizeAttr A) →
            ∃ v, getAttribute p ("data-" +:+ sanitizeAttr A) = Some v
                 ∧ v ∈ jq_val doc ("filter-" +:+ sanitizeAttr A))
         ∧ ("All" ∉ jq_val doc "filter-retail" →
            ∃ d, d ∈ jq_val doc "filter-retail" ∧ satisfies_flag p d))
    ∧ (∀ A, A ∈ Sample.names →
         getAttribute p ("data-" +:+ sanitizeAttr A) = None →
         "All" ∉ jq_val doc ("filter-" +:+ sanitizeAttr A) →
         el_display p' = "none")
    ∧ ((∀ A, A ∈ Sample.names →
          "All" ∈ jq_val doc ("filter-" +:+ sanitizeAttr A)) →
       "All" ∈ jq_val doc "filter-retail" →
       el_display p' = "block").
Proof.
  apply (visible_iff_filters_pass Sample.names Sample.red_page 1
           (set_display "none" Sample.hat_tile)).
  - intros A HA.
    repeat (apply elem_of_cons in HA as [->|HA]);
      [vm_compute; discriminate .. | by apply not_elem_of_nil in HA].
  - vm_compute. discriminate.
  - vm_compute. reflexivity.
Defined.

(** A flag reads as true in any letter case: with [walmart] picked, the shirt
    ([True]) stays and the hat ([false]) goes. *)
Example flag_filter_ignores_case :
  el_display
    <$> grid (filter_events Sample.names Sample.page
                [("filter-retail", Select "walmart")])
  = ["block"; "none"].
Proof. vm_compute. reflexivity. Qed.

(** ** Faceting *)

Lemma getAttribute_set_display d p name :
  getAttribute (set_display d p) name = getAttribute p name.
Proof. reflexivity. Qed.

Lemma flag_is_true_set_display d p f :
  flag_is_true (set_display d p) f = flag_is_true p f.
Proof. reflexivity. Qed.

(** The tiles left visible by [applyFilters] are the tiles that pass. *)
Lemma visible_after_display (shown : ProductEl → bool) sels g :
  visible_products
    (mkDoc sels
       ((λ p, set_display (if shown p then "block" else "none") p) <$> g))
  = set_display "block" <$> filter (λ p, shown p = true) g.
Proof.
  unfold visible_products. cbn [grid].
  induction g as [|p g IH]; [done|].
  rewrite fmap_cons. destruct (shown p) eqn:Hp.
  - rewrite (filter_cons_True (λ p, is_visible p = true)) by done.
    rewrite (filter_cons_True (λ p, shown p = true)) by done.
    by rewrite IH.
  - rewrite (filter_cons_False (λ p, is_visible p = true)) by done.
    rewrite (filter_cons_False (λ p, shown p = true)) by congruence.
    by rewrite IH.
Qed.

Lemma facet_option_idemp avail o :
  facet_option avail (facet_option avail o) = facet_option avail o.
Proof.
  unfold facet_option. cbn zeta.
  destruct (decide (opt_value o = "All")) as [Hv|Hv].
  - rewrite (bool_decide_true (opt_value o = "All")) by done.
    by rewrite bool_decide_true.
  - rewrite (bool_decide_false (opt_value o = "All")) by done.
    simpl. by rewrite bool_decide_false.
Qed.

Lemma map_options_idemp avail s :
  map_options (facet_option avail) (map_options (facet_option avail) s)
  = map_options (facet_option avail) s.
Proof.
  unfold map_options. simpl. f_equal. rewrite <- list_fmap_compose.
  apply list_fmap_ext. intros _ o _. apply facet_option_idemp.
Qed.

(** The attribute pass of [updateFilterOptions], seen from one control. *)
Lemma facet_fold_lookup (avail : string → list (option string)) names key :
  ∀ sels : gmap string SelectEl,
  fold_left
    (λ sels attr,
       alter (map_options (facet_option (avail (sanitizeAttr attr))))
         ("filter-" +:+ sanitizeAttr attr) sels)
    names sels !! ("filter-" +:+ key)
  = if bool_decide (key ∈ sanitizeAttr <$> names)
    then map_options (facet_option (avail key)) <$> sels !! ("filter-" +:+ key)
    else sels !! ("filter-" +:+ key).
Proof.
  induction names as [|A names IH]; intros sels.
  { reflexivity. }
  cbn [fold_left]. rewrite IH, fmap_cons.
  destruct (decide (sanitizeAttr A = key)) as [<-|Hne].
  - rewrite lookup_alter_eq.
    rewrite (bool_decide_true (_ ∈ _ :: _)) by left.
    case_bool_decide; [|done].
    destruct (sels !! _) as [s|]; [|done]. simpl. f_equal.
    apply map_options_idemp.
  - rewrite lookup_alter_ne.
    2:{ intros H. apply Hne. by apply (inj (String.app "filter-")) in H. }
    case_bool_decide as Hin.
    + rewrite bool_decide_true by (by right). done.
    + rewrite bool_decide_false; [done|].
      intros [?|?]%elem_of_cons; [by subst|done].
Qed.

Lemma facet_option_faceted avail s :
  faceted (λ v, Some v ∈ avail) s (map_options (facet_option avail) s).
Proof.
  split; [done|]. simpl. apply Forall2_fmap_r, Forall_Forall2_diag.
  apply Forall_forall. intros o _. unfold facet_option, compose. cbn beta zeta.
  destruct (decide (opt_value o = "All")) as [Hv|Hv].
  - rewrite bool_decide_true by done. done.
  - rewrite bool_decide_false by done. simpl. split_and!; [done..|].
    intros _. rewrite negb_false_iff, bool_decide_eq_true. done.
Qed.

Lemma facet_flag_faceted visible s :
  faceted (λ f, ∃ p, p ∈ visible ∧ flag_is_true p f = true) s
    (map_options (facet_flag visible) s).
Proof.
  split; [done|]. simpl. apply Forall2_fmap_r, Forall_Forall2_diag.
  apply Forall_forall. intros o _. unfold facet_flag, compose. cbn beta zeta.
  destruct (decide (opt_value o = "All")) as [Hv|Hv].
  - rewrite bool_decide_true by done. done.
  - rewrite bool_decide_false by done. simpl. split_and!; [done..|].
    intros _. rewrite negb_false_iff, existsb_exists.
    split; intros (p & Hp & Hf); exists p; (split; [|done]);
      by apply list_elem_of_In.
Qed.

Lemma faceted_iff (P Q : string → Prop) s s' :
  (∀ v, P v ↔ Q v) → faceted P s s' → faceted Q s s'.
Proof.
  intros HPQ [Hval Hopts]. split; [done|].
  eapply Forall2_impl; [exact Hopts|].
  intros o o' (Hv & HAll & Hen). split_and!; [done..|].
  intros Hne. rewrite <- HPQ. by apply Hen.
Qed.

Lemma updateFilterOptions_attribute names doc key s :
  key ∈ sanitizeAttr <$> names →
  key ≠ "retail" →
  selects doc !! ("filter-" +:+ key) = Some s →
  selects (updateFilterOptions names doc) !! ("filter-" +:+ key)
  = Some (map_options
            (facet_option
               ((λ p, getAttribute p ("data-" +:+ key))
                  <$> visible_products doc)) s).
Proof.
  intros Hin Hne Hs. unfold updateFilterOptions. cbn [selects].
  rewrite lookup_alter_ne.
  2:{ intros H. apply Hne. symmetry.
      by apply (inj (String.app "filter-") "retail" key). }
  rewrite (facet_fold_lookup
             (λ key, (λ p, getAttribute p ("data-" +:+ key))
                       <$> visible_products doc)).
  by rewrite bool_decide_true, Hs.
Qed.

Lemma updateFilterOptions_retail names doc s :
  "retail" ∉ sanitizeAttr <$> names →
  selects doc !! "filter-retail" = Some s →
  selects (updateFilterOptions names doc) !! "filter-retail"
  = Some (map_options (facet_flag (visible_products doc)) s).
Proof.
  intros Hnot Hs. unfold updateFilterOptions. cbn [selects].
  rewrite lookup_alter_eq.
  change "filter-retail" with ("filter-" +:+ "retail").
  rewrite (facet_fold_lookup
             (λ key, (λ p, getAttribute p ("data-" +:+ key))
                       <$> visible_products doc)).
  rewrite bool_decide_false by done.
  change ("filter-" +:+ "retail") with "filter-retail". by rewrite Hs.
Qed.

(** C5.  After [applyFilters], where no attribute shares the control of the
    flags: the visible tiles are the tiles that pass the filters; in the
    control of every attribute an option other than [All] is enabled exactly
    when some visible tile has that value for the attribute; in the flag
    control an option other than [All] is enabled exactly when some visible
    tile satisfies that flag; and [All] is left as it was in both. *)
Theorem facets_follow_visible_set (names : list string) (doc : Doc) :
  "retail" ∉ sanitizeAttr <$> names →
  let doc' := applyFilters names doc in
  let visible := visible_products doc' in
  visible
  = set_display "block"
      <$> filter
            (λ p, show_product (read_filters names doc)
                    (jq_val doc "filter-retail") p = true)
            (grid doc)
  ∧ (∀ A s, A ∈ names →
       selects doc !! ("filter-" +:+ sanitizeAttr A) = Some s →
       ∃ s', selects doc' !! ("filter-" +:+ sanitizeAttr A) = Some s'
         ∧ faceted
             (λ v, ∃ p, p ∈ visible
                        ∧ getAttribute p ("data-" +:+ sanitizeAttr A) = Some v)
             s s')
  ∧ (∀ s, selects doc !! "filter-retail" = Some s →
       ∃ s', selects doc' !! "filter-retail" = Some s'
         ∧ faceted (λ f, ∃ p, p ∈ visible ∧ satisfies_flag p f) s s').
Proof.
  intros Hretail. cbn zeta. unfold applyFilters.
  set (shown := show_product (read_filters names doc)
                  (jq_val doc "filter-retail")).
  set (doc1 := mkDoc (selects doc) _).
  assert (visible_products (updateFilterOptions names doc1)
          = visible_products doc1) as Hvis by reflexivity.
  rewrite Hvis. split_and!.
  - apply (visible_after_display shown).
  - intros A s HA Hs. eexists. split.
    + assert (sanitizeAttr A ∈ sanitizeAttr <$> names) as Hkey
        by (apply list_elem_of_fmap; eauto).
      apply updateFilterOptions_attribute; [done| |exact Hs].
      intros Heq. apply Hretail. by rewrite <- Heq.
    + eapply faceted_iff; [|apply facet_option_faceted].
      intros v. cbn beta. rewrite list_elem_of_fmap. split.
      * intros (p & Hp & Hin). eauto.
      * intros (p & Hin & Hp). eauto.
  - intros s Hs. eexists. split.
    + by apply updateFilterOptions_retail.
    + eapply faceted_iff; [|apply facet_flag_faceted].
      intros f. cbn beta. split.
      * intros (p & Hin & Hp). exists p. by rewrite <- flag_is_true_spec.
      * intros (p & Hin & Hp). exists p. by rewrite flag_is_true_spec.
Qed.

Lemma facets_follow_visible_set_witness :
  let doc := Sample.red_page in
  let doc' := applyFilters Sample.names doc in
  let visible := visible_products doc' in
  visible
  = set_display "block"
      <$> filter
            (λ p, show_product (read_filters Sample.names doc)
                    (jq_val doc "filter-retail") p = true)
            (grid doc)
  ∧ (∀ A s, A ∈ Sample.names →
       selects doc !! ("filter-" +:+ sanitizeAttr A) = Some s →
       ∃ s', selects doc' !! ("filter-" +:+ sanitizeAttr A) = Some s'
         ∧ faceted
             (λ v, ∃ p, p ∈ visible
                        ∧ getAttribute p ("data-" +:+ sanitizeAttr A) = Some v)
             s s')
  ∧ (∀ s, selects doc !! "filter-retail" = Some s →
       ∃ s', selects doc' !! "filter-retail" = Some s'
         ∧ faceted (λ f, ∃ p, p ∈ visible ∧ satisfies_flag p f) s s').
Proof.
  apply (facets_follow_visible_set Sample.names Sample.red_page).
  intros H. vm_compute in H.
  repeat (apply elem_of_cons in H as [H|H]; [discriminate|]).
  by apply not_elem_of_nil in H.
Defined.

(** The scenario of the specification: with [Red] picked, the size control
    offers only the size of the red shirt. *)
Example red_filter_restricts_sizes :
  visible_products Sample.red_page = [set_display "block" Sample.shirt_tile]
  ∧ sel_options <$> selects Sample.red_page !! "filter-ATT_Size"
    = Some [mkOption "All" false; mkOption "M" false; mkOption "L" true].
Proof. vm_compute. auto. Qed.

(** ** Sorting *)

Lemma is_positive_sub (a b : Q) : is_positive (Fin (a - b)) = true ↔ (b < a)%Q.
Proof.
  simpl. split.
  - destruct (a - b ?= 0)%Q eqn:E; try discriminate. intros _.
    apply Qgt_alt in E. lra.
  - intros H. assert ((a - b ?= 0)%Q = Gt) as -> by (apply Qgt_alt; lra). done.
Qed.

Section InsertionSort.
Context {A : Type} (comparefn : A → A → Num) (key : A → Q).

Local Abbreviation by_key := (λ a b : A, (key a <= key b)%Q).

Lemma sort_insert_perm x l : sort_insert comparefn x l ≡ₚ x :: l.
Proof.
  induction l as [|y l IH]; simpl; [done|].
  destruct (is_positive (comparefn x y)); [|done].
  rewrite IH. apply perm_swap.
Qed.

Lemma array_sort_perm l : array_sort comparefn l ≡ₚ l.
Proof.
  induction l as [|x l IH]; simpl; [done|].
  rewrite sort_insert_perm. by rewrite IH.
Qed.

Lemma sort_insert_sorted x l :
  (∀ y, y ∈ l → is_positive (comparefn x y) = true ↔ (key y < key x)%Q) →
  StronglySorted by_key l →
  StronglySorted by_key (sort_insert comparefn x l).
Proof.
  induction l as [|y l IH]; intros Hcmp Hs; simpl.
  { constructor; constructor. }
  apply StronglySorted_inv in Hs as [Hs Hy].
  destruct (is_positive (comparefn x y)) eqn:Hpos.
  - apply Hcmp in Hpos; [|left]. constructor.
    + apply IH; [|done]. intros z Hz. apply Hcmp. by right.
    + rewrite sort_insert_perm. constructor; [lra|done].
  - assert (key x <= key y)%Q as Hxy.
    { apply Qnot_lt_le. intros H. apply Hcmp in H; [congruence|left]. }
    constructor; [by constructor|]. constructor; [done|].
    eapply Forall_impl; [exact Hy|]. intros z Hz. simpl in *. lra.
Qed.

Lemma array_sort_sorted l :
  (∀ x y, x ∈ l → y ∈ l →
     is_positive (comparefn x y) = true ↔ (key y < key x)%Q) →
  StronglySorted by_key (array_sort comparefn l).
Proof.
  induction l as [|x l IH]; intros Hcmp; simpl; [constructor|].
  apply sort_insert_sorted.
  - intros y Hy. rewrite array_sort_perm in Hy. apply Hcmp; [left|by right].
  - apply IH. intros y z Hy Hz. apply Hcmp; by right.
Qed.

Lemma sort_insert_stable (C : A → Prop) `{∀ a, Decision (C a)} x l :
  (∀ y, y ∈ l → C x → C y → is_positive (comparefn x y) = false) →
  filter C (sort_insert comparefn x l) = filter C (x :: l).
Proof.
  induction l as [|y l IH]; intros Hcmp; simpl; [done|].
  destruct (is_positive (comparefn x y)) eqn:Hpos; [|done].
  rewrite filter_cons, IH by (intros z Hz; apply Hcmp; by right).
  rewrite !filter_cons.
  destruct (decide (C y)) as [Hy|Hy]; [|done].
  destruct (decide (C x)) as [Hx|Hx]; [|done].
  rewrite Hcmp in Hpos; [done|left|done..].
Qed.

Lemma array_sort_stable (C : A → Prop) `{∀ a, Decision (C a)} l :
  (∀ x y, x ∈ l → y ∈ l → C x → C y → is_positive (comparefn x y) = false) →
  filter C (array_sort comparefn l) = filter C l.
Proof.
  induction l as [|x l IH]; intros Hcmp; simpl; [done|].
  rewrite sort_insert_stable.
  - rewrite !filter_cons, IH; [done|]. intros y z Hy Hz. apply Hcmp; by right.
  - intros y Hy. rewrite array_sort_perm in Hy. apply Hcmp; [left|by right].
Qed.

End InsertionSort.

Lemma StronglySorted_weaken {A} (R S : A → A → Prop) l :
  (∀ a b, R a b → S a b) → StronglySorted R l → StronglySorted S l.
Proof.
  intros HRS. induction 1 as [|a l _ IH Ha]; constructor; [done|].
  eapply Forall_impl; [exact Ha|]. auto.
Qed.

Lemma compare_items_price_asc lc a b :
  price_number a ≠ NaN → price_number b ≠ NaN →
  compare_items lc "price" "asc" a b = Fin (price_value a - price_value b).
Proof.
  unfold compare_items, price_value. simpl.
  destruct (price_number a), (price_number b); done.
Qed.

Lemma compare_items_price_desc lc a b :
  price_number a ≠ NaN → price_number b ≠ NaN →
  compare_items lc "price" "desc" a b = Fin (price_value b - price_value a).
Proof.
  unfold compare_items, price_value. simpl.
  destruct (price_number a), (price_number b); done.
Qed.

(** C2 (as amended).  The price of a tile is read by dropping every character
    of its price text that is neither a digit nor a point and parsing what is
    left; a tile without a price node counts as zero.  When the price of every tile parses, sorting by price puts the
    tiles in non-decreasing order of that value when ascending and in
    non-increasing order when descending, tiles of equal value keeping their
    order; so [$10, $2, $1.5] ascending is [$1.5, $2, $10]. *)
Theorem price_sort_orders_by_value
    (localeCompare : string → string → Z) (doc : Doc) :
  (∀ p, p ∈ grid doc → price_number p ≠ NaN) →
  let ascending := grid (sortByField localeCompare "price" "asc" doc) in
  let descending := grid (sortByField localeCompare "price" "desc" doc) in
  ascending ≡ₚ grid doc
  ∧ StronglySorted (λ a b, (price_value a <= price_value b)%Q) ascending
  ∧ descending ≡ₚ grid doc
  ∧ StronglySorted (λ a b, (price_value b <= price_value a)%Q) descending
  ∧ (∀ q, filter (λ p, Qeq_bool (price_value p) q = true) ascending
          = filter (λ p, Qeq_bool (price_value p) q = true) (grid doc))
  ∧ (∀ q, filter (λ p, Qeq_bool (price_value p) q = true) descending
          = filter (λ p, Qeq_bool (price_value p) q = true) (grid doc))
  ∧ (∀ p t, grid_price p = Some t →
       price_number p = parseFloat (strip_non_numeric (textContent t)))
  ∧ (∀ p, grid_price p = None → price_number p = Fin 0)
  ∧ price_number (Sample.priced 0 "$1,234.50") = Fin 1234.50
  ∧ grid (sortByField localeCompare "price" "asc"
            (Sample.price_grid ["$10"; "$2"; "$1.5"]))
    = grid (Sample.price_grid ["$1.5"; "$2"; "$10"]).
Proof.
  intros Hparse. cbn zeta. unfold sortByField. cbn [grid]. split_and!.
  - apply array_sort_perm.
  - apply (array_sort_sorted _ price_value). intros x y Hx Hy.
    rewrite compare_items_price_asc by auto. apply is_positive_sub.
  - apply array_sort_perm.
  - apply (StronglySorted_weaken
             (λ a b, (- price_value a <= - price_value b)%Q)).
    { intros a b. simpl. lra. }
    apply (array_sort_sorted _ (λ p, (- price_value p)%Q)). intros x y Hx Hy.
    rewrite compare_items_price_desc by auto. rewrite is_positive_sub. lra.
  - intros q. apply array_sort_stable. intros x y Hx Hy Hxq Hyq.
    rewrite compare_items_price_asc by auto.
    apply Qeq_bool_iff in Hxq, Hyq. apply not_true_is_false.
    rewrite is_positive_sub. lra.
  - intros q. apply array_sort_stable. intros x y Hx Hy Hxq Hyq.
    rewrite compare_items_price_desc by auto.
    apply Qeq_bool_iff in Hxq, Hyq. apply not_true_is_false.
    rewrite is_positive_sub. lra.
  - intros p t Ht. unfold price_number. by rewrite Ht.
  - intros p Hp. unfold price_number. by rewrite Hp.
  - reflexivity.
  - vm_compute. reflexivity.
Qed.

Lemma price_sort_orders_by_value_witness :
  let doc := Sample.price_grid ["$10"; "$2"; "$1.5"; "2.00"] in
  let ascending := grid (sortByField ordinalCompare "price" "asc" doc) in
  let descending := grid (sortByField ordinalCompare "price" "desc" doc) in
  ascending ≡ₚ grid doc
  ∧ StronglySorted (λ a b, (price_value a <= price_value b)%Q) ascending
  ∧ descending ≡ₚ grid doc
  ∧ StronglySorted (λ a b, (price_value b <= price_value a)%Q) descending
  ∧ (∀ q, filter (λ p, Qeq_bool (price_value p) q = true) ascending
          = filter (λ p, Qeq_bool (price_value p) q = true) (grid doc))
  ∧ (∀ q, filter (λ p, Qeq_bool (price_value p) q = true) descending
          = filter (λ p, Qeq_bool (price_value p) q = true) (grid doc))
  ∧ (∀ p t, grid_price p = Some t →
       price_number p = parseFloat (strip_non_numeric (textContent t)))
  ∧ (∀ p, grid_price p = None → price_number p = Fin 0)
  ∧ price_number (Sample.priced 0 "$1,234.50") = Fin 1234.50
  ∧ grid (sortByField ordinalCompare "price" "asc"
            (Sample.price_grid ["$10"; "$2"; "$1.5"]))
    = grid (Sample.price_grid ["$1.5"; "$2"; "$10"]).
Proof.
  apply (price_sort_orders_by_value ordinalCompare
           (Sample.price_grid ["$10"; "$2"; "$1.5"; "2.00"])).
  intros p Hp. vm_compute in Hp.
  repeat (apply elem_of_cons in Hp as [->|Hp]; [vm_compute; discriminate|]).
  by apply not_elem_of_nil in Hp.
Defined.

(** C2 as stated fails twice.  A price text without a digit parses to [NaN],
    not to zero: compared with any tile it counts as equal, and the tiles
    [$10, $2, abc] sorted ascending come out as [$2, $10, abc].  And the
    point is kept when the text is stripped: [$1.5] is worth 1.5, not 15, and
    sorts before [$2]. *)
Lemma unparseable_price_is_not_zero :
  price_number (Sample.priced 0 "abc") = NaN
  ∧ compare_items ordinalCompare "price" "asc"
      (Sample.priced 0 "abc") (Sample.priced 0 "$2") = NaN
  ∧ grid (sortByField ordinalCompare "price" "asc"
            (Sample.price_grid ["$10"; "$2"; "abc"]))
    = grid (Sample.price_grid ["$2"; "$10"; "abc"])
  ∧ grid (sortByField ordinalCompare "price" "asc"
            (Sample.price_grid ["$10"; "$2"; "abc"]))
    ≠ grid (Sample.price_grid ["abc"; "$2"; "$10"])
  ∧ price_number (Sample.priced 0 "$1.5") = Fin 1.5
  ∧ grid (sortByField ordinalCompare "price" "asc"
            (Sample.price_grid ["$2"; "$1.5"]))
    = grid (Sample.price_grid ["$1.5"; "$2"]).
Proof. vm_compute. split_and!; try reflexivity. discriminate. Qed.

(** * Further properties *)

Import Notions.

(** ** Attribute keys *)

Lemma append_assoc a b c : a +:+ (b +:+ c) = (a +:+ b) +:+ c.
Proof. induction a as [|d a IH]; [done|]. by rewrite !append_cons, IH. Qed.

Lemma replace_all_append c r a b :
  replace_all c r (a +:+ b) = replace_all c r a +:+ replace_all c r b.
Proof.
  induction a as [|d a IH]; [done|]. rewrite append_cons. simpl.
  destruct (Ascii.eqb d c); rewrite IH; [|done]. apply append_assoc.
Qed.

Lemma keep_chars_append keep a b :
  keep_chars keep (a +:+ b) = keep_chars keep a +:+ keep_chars keep b.
Proof.
  induction a as [|d a IH]; [done|]. rewrite append_cons. simpl.
  destruct (keep d); by rewrite IH.
Qed.

Lemma sanitizeAttr_append a b :
  sanitizeAttr (a +:+ b) = sanitizeAttr a +:+ sanitizeAttr b.
Proof.
  unfold sanitizeAttr.
  by rewrite !replace_all_append, keep_chars_append, !replace_all_append.
Qed.

(** X1.  [sanitizeAttr] works character by character, so it distributes over
    concatenation, and names that differ only by a space, a slash or an
    underscore, or by parentheses or colons, get the same key. *)
Theorem sanitizeAttr_collisions (a b : string) :
  sanitizeAttr (a +:+ b) = sanitizeAttr a +:+ sanitizeAttr b
  ∧ sanitizeAttr (a +:+ " " +:+ b) = sanitizeAttr (a +:+ "_" +:+ b)
  ∧ sanitizeAttr (a +:+ "/" +:+ b) = sanitizeAttr (a +:+ "_" +:+ b)
  ∧ sanitizeAttr (a +:+ "(" +:+ b) = sanitizeAttr (a +:+ b)
  ∧ sanitizeAttr (a +:+ ")" +:+ b) = sanitizeAttr (a +:+ b)
  ∧ sanitizeAttr (a +:+ ":" +:+ b) = sanitizeAttr (a +:+ b)
  ∧ sanitizeAttr (a +:+ "+" +:+ b) = sanitizeAttr (a +:+ "plus" +:+ b).
Proof. rewrite !sanitizeAttr_append. split_and!; reflexivity. Qed.

(** ** [applyFilters] as a whole *)

Import Facets.






















(** ** Faceting has no memory *)












(** ** More on sorting *)

(** X4.  Sorting, by any field, in any direction and under any collation,
    only rearranges the tiles: the sorted grid is a permutation of the grid
    and the controls are untouched.  The same holds of the legacy
    [sortByAttr]. *)
Theorem sorting_only_rearranges
    (localeCompare : string → string → Z) (field dir : string) (doc : Doc) :
  grid (sortByField localeCompare field dir doc) ≡ₚ grid doc
  ∧ selects (sortByField localeCompare field dir doc) = selects doc
  ∧ grid (Legacy.sortByAttr localeCompare field doc) ≡ₚ grid doc
  ∧ selects (Legacy.sortByAttr localeCompare field doc) = selects doc.
Proof. split_and!; first [apply array_sort_perm | reflexivity]. Qed.

(** ** More on the modal and the save handler *)

Lemma save_row_pristine idx s r : pristine (save_row idx s r).2 = pristine s.2.
Proof. destruct s as [pc cur]. unfold save_row. by case_bool_decide. Qed.

Lemma save_rows_pristine idx rows : ∀ s,
  pristine (fold_left (save_row idx) rows s).2 = pristine s.2.
Proof.
  induction rows as [|r rows IH]; intros s; [done|].
  cbn [fold_left]. by rewrite IH, save_row_pristine.
Qed.

Lemma save_blocks_pristine idx m pc cur :
  pristine
    (save_attributes idx m (save_price idx m (save_description idx m (pc, cur)))).2
  = pristine cur.
Proof.
  unfold save_attributes. rewrite save_rows_pristine.
  unfold save_price, save_description.
  case_bool_decide; destruct (modalPrice m); try case_bool_decide; done.
Qed.

(** The ways a click on the save button can end. *)
Lemma save_outcomes names st :
  let out := saveModalChanges names st in
  (PRODUCTS_DATA out.1 = PRODUCTS_DATA st
   ∧ currentProductInModal out.1 = currentProductInModal st
   ∧ modal out.1 = modal st ∧ doc out.1 = doc st
   ∧ (∀ i f, pending_value (pendingChanges out.1) i f
             = pending_value (pendingChanges st) i f))
  ∨ (∃ pos cur text,
       currentProductInModal st = Some pos
       ∧ PRODUCTS_DATA st !! pos = Some cur
       ∧ modalPrice (modal st) = Some text
       ∧ price_accepted (trim text) = true).
Proof.
  cbn zeta. unfold saveModalChanges.
  destruct (currentProductInModal st) as [pos|] eqn:Hc; [|by left].
  destruct (PRODUCTS_DATA st !! pos) as [cur|] eqn:Hp; [|by left].
  destruct (modalPrice (modal st)) as [text|] eqn:Hm.
  - destruct (price_accepted (trim text)) eqn:Hacc.
    + right. by exists pos, cur, text.
    + left. simpl. split_and!; try done. intros i f.
      apply pending_value_ensure.
  - left. simpl. split_and!; try done. intros i f. apply pending_value_ensure.
Qed.

Lemma save_keeps_pristine names st :
  pristine <$> PRODUCTS_DATA (saveModalChanges names st).1
  = pristine <$> PRODUCTS_DATA st.
Proof.
  destruct (save_outcomes names st) as [(-> & _)|(pos & cur & text & Hc & Hp & Hm & Hacc)];
    [done|].
  pose proof (save_accepted names st pos cur text Hc Hp Hm Hacc) as (-> & _).
  rewrite list_fmap_insert, save_blocks_pristine.
  apply list_insert_id. by rewrite list_lookup_fmap, Hp.
Qed.

(** X5.  A save writes to one record only, the record in the modal: every
    other record is untouched; no record is added or removed; and of every
    record the id, the original description, price and attributes and the
    image stay what they were. *)
Theorem save_touches_only_the_open_record (names : list string) (st : State) :
  let st' := (saveModalChanges names st).1 in
  length (PRODUCTS_DATA st') = length (PRODUCTS_DATA st)
  ∧ pristine <$> PRODUCTS_DATA st' = pristine <$> PRODUCTS_DATA st
  ∧ currentProductInModal st' = currentProductInModal st
  ∧ (∀ j, PRODUCTS_DATA st' !! j = PRODUCTS_DATA st !! j
          ∨ currentProductInModal st = Some j).
Proof.
  cbn zeta. split; [|split; [apply save_keeps_pristine|]].
  { rewrite <- (length_fmap pristine), save_keeps_pristine.
    by rewrite length_fmap. }
  destruct (save_outcomes names st)
    as [(Hps & Hcur & _)|(pos & cur & text & Hc & Hp & Hm & Hacc)].
  { split; [done|]. intros j. left. by rewrite Hps. }
  pose proof (save_accepted names st pos cur text Hc Hp Hm Hacc) as (Hps & _).
  split.
  - unfold saveModalChanges. rewrite Hc, Hp, Hm, Hacc. cbn [negb].
    destruct (save_attributes _ _ _). by destruct (updateMainGridView _ _ _ _).
  - intros j. destruct (decide (j = pos)) as [->|Hj]; [by right|left].
    rewrite Hps. by apply list_lookup_insert_ne.
Qed.

(** X6.  On a page without a [#modalPrice] node every click on the save
    button ends in a [TypeError] before anything is recorded, whatever was
    edited: records, modal, grid and pending entries stay as they were. *)
Theorem save_without_price_node_fails
    (names : list string) (st : State) (pos : nat) (cur : Product) :
  currentProductInModal st = Some pos →
  PRODUCTS_DATA st !! pos = Some cur →
  modalPrice (modal st) = None →
  let out := saveModalChanges names st in
  out.2 = [TypeError]
  ∧ PRODUCTS_DATA out.1 = PRODUCTS_DATA st
  ∧ modal out.1 = modal st
  ∧ doc out.1 = doc st
  ∧ (∀ i f, pending_value (pendingChanges out.1) i f
            = pending_value (pendingChanges st) i f).
Proof.
  intros Hc Hp Hm. cbn zeta. unfold saveModalChanges. rewrite Hc, Hp, Hm.
  simpl. split_and!; try done. intros i f. apply pending_value_ensure.
Qed.

Lemma save_without_price_node_fails_witness :
  let st := edit_description "Crimson shirt"
              (openModal Sample.names Sample.shirt_tile
                 Scenario.start_without_price_node) in
  let out := saveModalChanges Sample.names st in
  out.2 = [TypeError]
  ∧ PRODUCTS_DATA out.1 = PRODUCTS_DATA st
  ∧ modal out.1 = modal st
  ∧ doc out.1 = doc st
  ∧ (∀ i f, pending_value (pendingChanges out.1) i f
            = pending_value (pendingChanges st) i f).
Proof.
  apply (save_without_price_node_fails Sample.names
           (edit_description "Crimson shirt"
              (openModal Sample.names Sample.shirt_tile
                 Scenario.start_without_price_node))
           0 Sample.shirt); reflexivity.
Defined.

(** *** What a save records *)

Lemma save_rows_pending idx rows : ∀ pc cur r,
  NoDup (row_attrName <$> rows) →
  r ∈ rows →
  Some (row_value r) ≠ attributes cur !! row_attrName r →
  pending_value (fold_left (save_row idx) rows (pc, cur)).1 idx (row_attrName r)
  = Some (row_value r).
Proof.
  induction rows as [|r0 rows IH]; intros pc cur r Hnd Hin Hne;
    [by apply elem_of_nil in Hin|].
  rewrite fmap_cons in Hnd. apply NoDup_cons in Hnd as [Hr0 Hnd].
  cbn [fold_left]. apply elem_of_cons in Hin as [->|Hin].
  - assert (save_row idx (pc, cur) r0
            = (set_pending idx (row_attrName r0) (row_value r0) pc,
               set_attribute (row_attrName r0) (row_value r0) cur)) as ->
      by (unfold save_row; by rewrite bool_decide_true).
    pose proof (save_rows_other_field idx (row_attrName r0) rows
                  (set_pending idx (row_attrName r0) (row_value r0) pc)
                  (set_attribute (row_attrName r0) (row_value r0) cur) Hr0)
      as [Hpv _].
    cbn zeta in Hpv. rewrite Hpv. apply pending_value_set_eq.
  - pose proof (save_row_spec idx pc cur r0) as (_ & _ & Ho & _).
    destruct (save_row idx (pc, cur) r0) as [pc1 cur1]. cbn [fst snd] in Ho.
    apply IH; try done. rewrite Ho; [done|].
    intros E. apply Hr0. rewrite <- E. apply list_elem_of_fmap. by exists r.
Qed.

Lemma save_blocks_row_pending idx m pc cur r :
  NoDup (row_attrName <$> modal_rows m) →
  r ∈ modal_rows m →
  Some (row_value r) ≠ attributes cur !! row_attrName r →
  pending_value
    (save_attributes idx m (save_price idx m (save_description idx m (pc, cur)))).1
    idx (row_attrName r)
  = Some (row_value r).
Proof.
  intros Hnd Hin Hne.
  pose proof (save_description_spec idx m pc cur) as (_ & _ & Ha1 & _).
  destruct (save_description idx m (pc, cur)) as [pc1 cur1].
  pose proof (save_price_spec idx m pc1 cur1) as (_ & _ & Ha2 & _).
  destruct (save_price idx m (pc1, cur1)) as [pc2 cur2].
  cbn [fst snd] in *. unfold save_attributes.
  apply save_rows_pending; try done. by rewrite Ha2, Ha1.
Qed.

Lemma save_blocks_description_pending idx m pc cur :
  "description" ∉ row_attrName <$> modal_rows m →
  trim (modalDescription m) ≠ description cur →
  pending_value
    (save_attributes idx m (save_price idx m (save_description idx m (pc, cur)))).1
    idx "description"
  = Some (trim (modalDescription m)).
Proof.
  intros Hrows Hne. unfold save_attributes.
  assert (pending_value
            (save_price idx m (save_description idx m (pc, cur))).1
            idx "description"
          = Some (trim (modalDescription m))) as H2.
  { unfold save_description. rewrite bool_decide_true by done.
    unfold save_price.
    destruct (modalPrice m); [case_bool_decide|]; cbn [fst];
      rewrite ?pending_value_set_ne by (by intros [_ ?]);
      apply pending_value_set_eq. }
  destruct (save_price idx m (save_description idx m (pc, cur))) as [pc2 cur2].
  pose proof (save_rows_other_field idx "description" (modal_rows m) pc2 cur2
                Hrows) as [Hpv _].
  cbn zeta in Hpv. by rewrite Hpv.
Qed.

(** X7.  A save records every attribute and description it changes: when
    the entered value of a row differs from the record's value, or the
    entered description from the record's description, the next click on
    [Apply] posts a request whose body holds that record, field and entered
    value. *)
Theorem saved_edit_reaches_the_request
    (names : list string) (st : State) (pos : nat) (cur : Product)
    (text f v : string) :
  currentProductInModal st = Some pos →
  PRODUCTS_DATA st !! pos = Some cur →
  modalPrice (modal st) = Some text →
  price_accepted (trim text) = true →
  NoDup (row_attrName <$> modal_rows (modal st)) →
  (f = "description" ∧ v = trim (modalDescription (modal st))
     ∧ v ≠ description cur
     ∧ "description" ∉ row_attrName <$> modal_rows (modal st))
  ∨ (∃ r, r ∈ modal_rows (modal st) ∧ f = row_attrName r ∧ v = row_value r
          ∧ Some v ≠ attributes cur !! f) →
  let st' := (saveModalChanges names st).1 in
  ∃ body,
    (Commit.applyChanges st').2 = [Fetch "/update_attributes" body]
    ∧ mkChange (original_index cur) f v ∈ body.
Proof.
  intros Hc Hp Hm Hacc Hnd Hedit. cbn zeta.
  pose proof (save_accepted names st pos cur text Hc Hp Hm Hacc) as (_ & Hpc & _).
  cbn zeta in Hpc.
  assert (pending_value (pendingChanges (saveModalChanges names st).1)
            (original_index cur) f = Some v) as Hpv.
  { rewrite Hpc. destruct Hedit as [(-> & -> & Hne & Hrows)|(r & Hin & -> & -> & Hne)].
    - by apply save_blocks_description_pending.
    - by apply save_blocks_row_pending. }
  apply elem_of_flatten in Hpv. unfold Commit.applyChanges.
  destruct (Commit.flatten _) as [|c body] eqn:Hfl;
    [by apply elem_of_nil in Hpv|].
  by exists (c :: body).
Qed.

Lemma saved_edit_reaches_the_request_witness :
  let st := choose_option "ATT Color" "Blue"
              (openModal Sample.names Sample.shirt_tile Sample.start) in
  ∃ body,
    (Commit.applyChanges (saveModalChanges Sample.names st).1).2
    = [Fetch "/update_attributes" body]
    ∧ mkChange 1 "ATT Color" "Blue" ∈ body.
Proof.
  apply (saved_edit_reaches_the_request Sample.names
           (choose_option "ATT Color" "Blue"
              (openModal Sample.names Sample.shirt_tile Sample.start))
           0 Sample.shirt (price Sample.shirt) "ATT Color" "Blue").
  - reflexivity.
  - reflexivity.
  - reflexivity.
  - reflexivity.
  - apply (bool_decide_unpack _). vm_compute. exact I.
  - right. exists (mkRow "ATT Color" "Blue" "").
    split; [vm_compute; repeat constructor|].
    split; [reflexivity|]. split; [reflexivity|].
    vm_compute. discriminate.
Defined.

(** *** Saving right after opening *)

Lemma open_rows_names product (names : list string) :
  row_attrName <$> (open_row product <$> names) = names.
Proof. induction names as [|A names IH]; [done|]. simpl. by f_equal. Qed.

Lemma openModal_found names el st pos product :
  find_product (el_index el) (PRODUCTS_DATA st) = Some (pos, product) →
  openModal names el st
  = mkState (PRODUCTS_DATA st) (pendingChanges st) (Some pos)
      (mkModal (description product)
         ((λ _, price product) <$> modalPrice (modal st))
         (open_row product <$> names) "block")
      (doc st).
Proof. intros Hf. unfold openModal. by rewrite Hf. Qed.

(** X8.  A record that lacks one of the attribute names gets it on the
    first save after its modal is opened, with nothing edited: the row of
    that attribute shows the text [undefined], the save takes it for a new
    value, writes it into the record and records it as a pending change. *)
Theorem missing_attribute_is_saved_as_undefined
    (names : list string) (el : ProductEl) (st : State)
    (pos : nat) (cur : Product) (A : string) :
  find_product (el_index el) (PRODUCTS_DATA st) = Some (pos, cur) →
  is_Some (modalPrice (modal st)) →
  price_accepted (trim (price cur)) = true →
  NoDup names →
  A ∈ names →
  attributes cur !! A = None →
  let st' := (saveModalChanges names (openModal names el st)).1 in
  pending_value (pendingChanges st') (original_index cur) A = Some "undefined"
  ∧ ∃ cur', PRODUCTS_DATA st' !! pos = Some cur'
            ∧ attributes cur' !! A = Some "undefined".
Proof.
  intros Hf [text Hm] Hacc Hnd HA Hnone. cbn zeta.
  pose proof Hf as Hf'. apply list_find_Some in Hf' as (Hlook & _ & _).
  rewrite (openModal_found names el st pos cur Hf), Hm.
  set (m := mkModal (description cur) ((λ _, price cur) <$> Some text)
              (open_row cur <$> names) "block").
  set (st1 := mkState (PRODUCTS_DATA st) (pendingChanges st) (Some pos) m (doc st)).
  assert (NoDup (row_attrName <$> modal_rows m)) as Hnd'
    by (unfold m; cbn [modal_rows]; by rewrite open_rows_names).
  assert (open_row cur A ∈ modal_rows m) as Hin
    by (apply list_elem_of_fmap; by exists A).
  assert (row_attrName (open_row cur A) = A) as Hname by done.
  assert (row_value (open_row cur A) = "undefined") as Hval
    by (unfold open_row; rewrite Hnone; reflexivity).
  pose proof (save_accepted names st1 pos cur (price cur)
                eq_refl Hlook eq_refl Hacc) as (Hps & Hpc & _).
  cbn zeta in Hps, Hpc. rewrite Hps, Hpc.
  pose proof (save_blocks_row_pending (original_index cur) m
                (ensure_entry (original_index cur) (pendingChanges st)) cur
                (open_row cur A) Hnd' Hin) as Hpv.
  rewrite Hname, Hval, Hnone in Hpv.
  pose proof (save_blocks_spec (original_index cur) m
                (ensure_entry (original_index cur) (pendingChanges st)) cur Hnd')
    as (_ & _ & _ & Hrows).
  specialize (Hrows (open_row cur A) Hin). rewrite Hname, Hval in Hrows.
  cbn [modal pendingChanges PRODUCTS_DATA] in *.
  split; [by apply Hpv|].
  eexists. split; [|exact Hrows].
  apply list_lookup_insert_eq. by eapply lookup_lt_Some.
Qed.

Lemma missing_attribute_is_saved_as_undefined_witness :
  let st' := (saveModalChanges Sample.names
                (openModal Sample.names Scenario.scarf_tile Scenario.start)).1 in
  pending_value (pendingChanges st') 3 "ATT Size" = Some "undefined"
  ∧ ∃ cur', PRODUCTS_DATA st' !! 2%nat = Some cur'
            ∧ attributes cur' !! "ATT Size" = Some "undefined".
Proof.
  apply (missing_attribute_is_saved_as_undefined Sample.names Scenario.scarf_tile
           Scenario.start 2 Scenario.scarf "ATT Size").
  - reflexivity.
  - vm_compute. eauto.
  - reflexivity.
  - apply (bool_decide_unpack _). vm_compute. exact I.
  - apply (bool_decide_unpack _). vm_compute. exact I.
  - reflexivity.
Defined.

(** ** Empty entries of the pending change set *)

Lemma flatten_ensure_entry idx pc : flatten (ensure_entry idx pc) ≡ₚ flatten pc.
Proof.
  unfold ensure_entry. destruct (pc !! idx) as [m|] eqn:H; simpl.
  - by rewrite insert_id.
  - unfold flatten. rewrite map_to_list_insert by done.
    cbn [mbind list_bind]. by rewrite map_to_list_empty.
Qed.

Lemma flatten_nil pc :
  flatten pc = [] ↔ ∀ i f, pending_value pc i f = None.
Proof.
  split.
  - intros Hnil i f. destruct (pending_value pc i f) as [v|] eqn:Hv; [|done].
    apply elem_of_flatten in Hv. rewrite Hnil in Hv. by apply elem_of_nil in Hv.
  - intros Hnone. destruct (flatten pc) as [|[i f v] l] eqn:Hfl; [done|].
    assert (mkChange i f v ∈ flatten pc) as Hin by (rewrite Hfl; by left).
    apply elem_of_flatten in Hin. by rewrite Hnone in Hin.
Qed.

(** X9.  The commit action counts values, not entries: it reports that
    there is nothing to apply exactly when no record has a pending value for
    any field, and the empty entry that every save creates for its record adds
    nothing to the request. *)
Theorem apply_ignores_empty_entries (st : State) (idx : Z) :
  (applyChanges st = (st, [Alert "No changes to apply!"])
   ↔ ∀ i f, pending_value (pendingChanges st) i f = None)
  ∧ flatten (ensure_entry idx (pendingChanges st)) ≡ₚ flatten (pendingChanges st).
Proof.
  split; [|apply flatten_ensure_entry].
  rewrite <- flatten_nil. unfold applyChanges.
  destruct (flatten (pendingChanges st)); simpl; split; done.
Qed.
